(** * Diff-SVC: the dataset binarizer and the batch limits of the training task

    A shallow embedding of
      - [basics/base_binarizer.py]: [BaseBinarizer.__init__],
        [split_train_valid_set], [build_spk_map], [meta_data_iterator],
        [process_dataset] with its local [postprocess], and [process];
      - [basics/base_task.py]: the batch limits read by [BaseTask.__init__],
        [validation_step], [on_validation_epoch_end], [on_save_checkpoint],
        [on_load_checkpoint], and the files copied by [start].

    Python sets are [gset string]; the order in which a loop enumerates a set
    is not fixed by the language, so every walk over a set takes its order
    from a parameter of the model ([Py.set_order], [BaseBinarizer.orders]).
    Exceptions are the [Raise] outcome of [Py.result]; failures of the file
    system are outside the model. *)

From Stdlib Require Import ZArith Ascii.
From stdpp Require Import gmap strings list sorting.

Local Open Scope Z_scope.
#[local] Set Warnings "-clear-no-such-hyp".

(** ** Python primitives used by the two classes *)
Module Py.

Inductive exn : Type :=
| KeyError (key : string)
| ZeroDivisionError
| AssertionError (msg : string)
| Exception (msg : string).

Inductive result (A : Type) : Type :=
| Ok (a : A)
| Raise (e : exn).
Global Arguments Ok {A} a.
Global Arguments Raise {A} e.

Global Instance result_ret : MRet result := λ A a, Ok a.
Global Instance result_bind : MBind result := λ A B f r,
  match r with
  | Ok a => f a
  | Raise e => Raise e
  end.

Definition returns {A} (r : result A) : Prop := ∃ a, r = Ok a.

(** [for x in xs: body], the loop body threading the local variables. *)
Fixpoint for_each {A S} (xs : list A) (body : A → S → result S) (s : S)
    : result S :=
  match xs with
  | [] => Ok s
  | x :: xs' => s' ← body x s; for_each xs' body s'
  end.

(** [str.split(sep)] for a one-character separator. *)
Fixpoint split (sep : ascii) (s : string) : list string :=
  match s with
  | EmptyString => [EmptyString]
  | String c s' =>
      if decide (c = sep) then EmptyString :: split sep s'
      else match split sep s' with
           | [] => [String c EmptyString]
           | field :: fields => String c field :: fields
           end
  end.

(** [name.split(':')[-1]] *)
Definition colon_suffix (name : string) : string :=
  List.last (split ":"%char name) EmptyString.

(** [s.startswith(p)] *)
Fixpoint startswith (s p : string) : bool :=
  match p, s with
  | EmptyString, _ => true
  | String _ _, EmptyString => false
  | String a p', String b s' => if decide (a = b) then startswith s' p' else false
  end.

(** [sorted(xs)] on strings: ascending code-point order. *)
Definition sorted (xs : list string) : list string := merge_sort String.le xs.

(** The order in which the interpreter enumerates a set: some arrangement
    of its elements, fixed for a given run. *)
Record set_order : Type := SetOrder {
  iter :> gset string → list string;
  iter_perm : ∀ X, iter X ≡ₚ elements X
}.

(** [s.remove(x)]: raises [KeyError] when [x] is not a member. *)
Definition set_remove (x : string) (s : gset string) : result (gset string) :=
  if decide (x ∈ s) then Ok (s ∖ {[x]}) else Raise (KeyError x).

(** Two concrete enumeration orders: ascending and descending. *)
Program Definition ascending : set_order :=
  SetOrder (λ X, sorted (elements X)) _.
Next Obligation. intros X. apply merge_sort_Permutation. Qed.

Program Definition descending : set_order :=
  SetOrder (λ X, reverse (sorted (elements X))) _.
Next Obligation.
  intros X. rewrite reverse_Permutation. apply merge_sort_Permutation.
Qed.

End Py.
Import Py.

(** ** basics/base_binarizer.py *)
Module BaseBinarizer.

(** The locals [valid_item_names] and [prefixes] of [split_train_valid_set]. *)
Definition locals : Type := gset string * gset string.

(** The sets the function walks through.  Each walk has an enumeration order
    of its own: [item_names] (one set object, never modified, walked at lines
    101, 107, 112 and 116), the three deep copies of [prefixes] (lines 95, 100
    and 106), [prefixes] itself (line 111) and [valid_item_names] (line 115). *)
Inductive walked : Type :=
| ItemNames
| PrefixesCopy1
| PrefixesCopy2
| PrefixesCopy3
| Prefixes
| ValidItemNames.

Definition orders : Type := walked → set_order.

(** Every set enumerated by the same rule. *)
Definition uniform (o : set_order) : orders := λ _, o.

Section split.
Context (os : orders) (item_names : gset string).

(** Lines 95-98 *)
Definition tier1_body (prefix : string) (st : locals) : result locals :=
  let '(valid_item_names, prefixes) := st in
  if decide (prefix ∈ item_names) then
    prefixes' ← set_remove prefix prefixes;
    Ok (valid_item_names ∪ {[prefix]}, prefixes')
  else Ok st.

(** Lines 100-104 *)
Definition tier2_body (prefix name : string) (st : locals) : result locals :=
  let '(valid_item_names, prefixes) := st in
  if decide (colon_suffix name = prefix) then
    prefixes' ← set_remove prefix prefixes;
    Ok (valid_item_names ∪ {[name]}, prefixes')
  else Ok st.

(** Lines 106-110 *)
Definition tier3_body (prefix name : string) (st : locals) : result locals :=
  let '(valid_item_names, prefixes) := st in
  if startswith name prefix then
    prefixes' ← set_remove prefix prefixes;
    Ok (valid_item_names ∪ {[name]}, prefixes')
  else Ok st.

(** Lines 111-114 *)
Definition tier4_body (prefix name : string) (st : locals) : result locals :=
  let '(valid_item_names, prefixes) := st in
  if startswith (colon_suffix name) prefix then
    Ok (valid_item_names ∪ {[name]}, prefixes)
  else Ok st.

Definition tier1 (st : locals) : result locals :=
  for_each (iter (os PrefixesCopy1) st.2) tier1_body st.
Definition tier2 (st : locals) : result locals :=
  for_each (iter (os PrefixesCopy2) st.2)
    (λ prefix, for_each (iter (os ItemNames) item_names) (tier2_body prefix)) st.
Definition tier3 (st : locals) : result locals :=
  for_each (iter (os PrefixesCopy3) st.2)
    (λ prefix, for_each (iter (os ItemNames) item_names) (tier3_body prefix)) st.
Definition tier4 (st : locals) : result locals :=
  for_each (iter (os Prefixes) st.2)
    (λ prefix, for_each (iter (os ItemNames) item_names) (tier4_body prefix)) st.

Definition valid_set (test_prefixes : list string) : result (gset string) :=
  st ← tier1 (∅, list_to_set test_prefixes);
  st ← tier2 st;
  st ← tier3 st;
  st ← tier4 st;
  Ok st.1.
End split.

(** [split_train_valid_set]: [self_item_names] is [self.item_names],
    [test_prefixes] is [hparams['test_prefixes']] (already strings). *)
Definition split_train_valid_set (os : orders)
    (self_item_names test_prefixes : list string)
    : result (list string * list string) :=
  let item_names : gset string := list_to_set self_item_names in
  valid ← valid_set os item_names test_prefixes;
  let valid_item_names := sorted (iter (os ValidItemNames) valid) in
  let valid_again : gset string := list_to_set valid_item_names in
  let train_item_names :=
    filter (λ x, x ∉ valid_again) (iter (os ItemNames) item_names) in
  Ok (train_item_names, valid_item_names).

(** *** [process_dataset] and [process] *)

(** Durations are Python floats (and the int [0] the counters start from);
    the model only needs their zero, their sum and the zero test behind
    the division in the final report. *)
Class Duration (T : Type) : Type := {
  d_zero : T;
  d_add : T → T → T;
  d_is_zero : T → bool
}.

(** A binarized record: the dict returned by [process_item], with the
    keys ['name'], ['length'] and ['seconds'] the base class reads. *)
Module Item.
Record t (T payload : Type) : Type := Make {
  name : string;
  length : Z;
  seconds : T;
  features : payload
}.
Global Arguments Make {T payload} _ _ _ _.
Global Arguments name {T payload} _.
Global Arguments length {T payload} _.
Global Arguments seconds {T payload} _.
Global Arguments features {T payload} _.
End Item.

Record binarization_args_t : Type := {
  shuffle : bool;
  num_workers : Z
}.

Section process.
Context {T : Type} `{Duration T} {meta_data payload kwargs_t aug_conf : Type}.

#[local] Abbreviation record := (Item.t T payload).

(** An augmentation task [{'func': f, 'kwargs': kw}]. *)
Record task : Type := {
  func : record → kwargs_t → record;
  kwargs : kwargs_t
}.

(** One argument triple [[item_name, meta_data, binarization_args]]. *)
Definition arg : Type := string * meta_data * binarization_args_t.

(** A generator of results: the values it yields, and whether it then
    ends or raises. *)
Definition stream : Type := list (option record) * result ().

(** The binarizer object: its data attributes, and the methods a subclass
    must provide. *)
Record binarizer : Type := {
  items : gmap string meta_data;
  train_item_names : list string;
  valid_item_names : list string;
  binarization_args : binarization_args_t;
  augmentation_args : gmap string aug_conf;
  speakers : list string;
  num_spk : Z;
  process_item : string → meta_data → binarization_args_t → result (option record);
  arrange_data_augmentation :
    list (string * meta_data) → result (gmap string (list task));
  check_coverage : result ()
}.

(** [utils.multiprocess_utils.chunked_multiprocess_run], an external
    collaborator: any generator of results. *)
Context (chunked_multiprocess_run :
  (string → meta_data → binarization_args_t → result (option record)) →
  list arg → Z → stream).

(** [meta_data_iterator]: the generator is drained by each of its callers,
    so it is modelled by the list it yields, or the [KeyError] of
    [self.items[item_name]]. *)
Fixpoint lookup_all (items : gmap string meta_data) (item_names : list string)
    : result (list (string * meta_data)) :=
  match item_names with
  | [] => Ok []
  | item_name :: rest =>
      match items !! item_name with
      | None => Raise (KeyError item_name)
      | Some meta => metas ← lookup_all items rest; Ok ((item_name, meta) :: metas)
      end
  end.

Definition meta_data_iterator (self : binarizer) (prefix : string)
    : result (list (string * meta_data)) :=
  let item_names :=
    if decide (prefix = "train") then train_item_names self
    else valid_item_names self in
  lookup_all (items self) item_names.

(** What [postprocess] closes over: the records handed to
    [builder.add_item] so far, [lengths], [total_sec], [total_raw_sec]. *)
Record closure : Type := Closure {
  builder : list record;
  lengths : list Z;
  total_sec : T;
  total_raw_sec : T
}.

(** [lengths] mirrors the records handed to the builder. *)
Definition in_step (st : closure) : Prop :=
  lengths st = Item.length <$> builder st.

Definition fresh : closure :=
  {| builder := []; lengths := []; total_sec := d_zero; total_raw_sec := d_zero |}.

(** Lines 181-184 *)
Definition add_base (st : closure) (_item : record) : closure :=
  {| builder := builder st ++ [_item];
     lengths := lengths st ++ [Item.length _item];
     total_sec := d_add (total_sec st) (Item.seconds _item);
     total_raw_sec := d_add (total_raw_sec st) (Item.seconds _item) |}.

(** Lines 187-190 *)
Definition add_augmented (_item : record) (st : closure) (t : task) : closure :=
  let aug_item := func t _item (kwargs t) in
  {| builder := builder st ++ [aug_item];
     lengths := lengths st ++ [Item.length aug_item];
     total_sec := d_add (total_sec st) (Item.seconds aug_item);
     total_raw_sec := total_raw_sec st |}.

(** Lines 177-190 *)
Definition postprocess (aug_map : gmap string (list task))
    (st : closure) (_item : option record) : closure :=
  match _item with
  | None => st
  | Some _item =>
      foldl (add_augmented _item) (add_base st _item)
        (default [] (aug_map !! Item.name _item))
  end.

(** Lines 194-198: the loop over the results of the worker pool. *)
Definition parallel_loop (aug_map : gmap string (list task))
    (results : stream) (st : closure) : closure * result () :=
  (foldl (postprocess aug_map) st results.1, results.2).

(** Lines 201-203: the loop on a single CPU. *)
Fixpoint sequential_loop (self : binarizer) (aug_map : gmap string (list task))
    (args : list arg) (st : closure) : closure * result () :=
  match args with
  | [] => (st, Ok ())
  | (item_name, meta, bargs) :: rest =>
      match process_item self item_name meta bargs with
      | Raise e => (st, Raise e)
      | Ok item => sequential_loop self aug_map rest (postprocess aug_map st item)
      end
  end.

(** What one call of [process_dataset] does: the records handed to
    [builder.add_item] in order, whether [builder.finalize()] was
    reached, the array saved to [{prefix}.lengths] if any, and how the
    call ended. *)
Record run : Type := Run {
  add_item_calls : list record;
  finalized : bool;
  lengths_file : option (list Z);
  outcome : result ()
}.

Definition aborted (st : closure) (e : exn) : run :=
  {| add_item_calls := builder st; finalized := false;
     lengths_file := None; outcome := Raise e |}.

(** Lines 210-215: the report divides by [total_raw_sec] when
    augmentation was applied. *)
Definition report (apply_augmentation : bool) (st : closure) : result () :=
  if apply_augmentation then
    if d_is_zero (total_raw_sec st) then Raise ZeroDivisionError else Ok ()
  else Ok ().

Definition process_dataset (self : binarizer) (prefix : string)
    (num_workers : Z) (apply_augmentation : bool) : run :=
  match meta_data_iterator self prefix with
  | Raise e => aborted fresh e
  | Ok metas =>
      let args := (λ nm, (nm.1, nm.2, binarization_args self)) <$> metas in
      match (if apply_augmentation
             then arrange_data_augmentation self metas else Ok ∅) with
      | Raise e => aborted fresh e
      | Ok aug_map =>
          let '(st, r) :=
            if decide (0 < num_workers) then
              parallel_loop aug_map
                (chunked_multiprocess_run (process_item self) args num_workers)
                fresh
            else sequential_loop self aug_map args fresh in
          match r with
          | Raise e => aborted st e
          | Ok _ =>
              {| add_item_calls := builder st; finalized := true;
                 lengths_file := Some (lengths st);
                 outcome := report apply_augmentation st |}
          end
      end
  end.

(** [build_spk_map] *)
Definition build_spk_map (self : binarizer) : result (gmap string nat) :=
  let spk_map : gmap string nat :=
    list_to_map (reverse (imap (λ i x, (x, i)) (speakers self))) in
  if decide (Z.of_nat (size spk_map) ≤ num_spk self) then Ok spk_map
  else Raise (AssertionError
                "Actual number of speakers should be smaller than num_spk!").

(** What one call of [process] does. *)
Record process_run : Type := {
  spk_map_json : option (gmap string nat);
  valid_run : option run;
  train_run : option run;
  process_outcome : result ()
}.

Definition process (self : binarizer) : process_run :=
  match build_spk_map self with
  | Raise e =>
      {| spk_map_json := None; valid_run := None; train_run := None;
         process_outcome := Raise e |}
  | Ok spk_map =>
      match check_coverage self with
      | Raise e =>
          {| spk_map_json := Some spk_map; valid_run := None; train_run := None;
             process_outcome := Raise e |}
      | Ok _ =>
          let v := process_dataset self "valid" 0 false in
          match outcome v with
          | Raise e =>
              {| spk_map_json := Some spk_map; valid_run := Some v;
                 train_run := None; process_outcome := Raise e |}
          | Ok _ =>
              let t := process_dataset self "train"
                         (num_workers (binarization_args self))
                         (bool_decide (0 < size (augmentation_args self))%nat) in
              {| spk_map_json := Some spk_map; valid_run := Some v;
                 train_run := Some t; process_outcome := outcome t |}
          end
      end
  end.
End process.

Global Arguments task : clear implicits.
Global Arguments closure : clear implicits.
Global Arguments run : clear implicits.
Global Arguments binarizer : clear implicits.
Global Arguments process_run : clear implicits.

(** *** [__init__] *)

(** [random.seed(seed); random.shuffle(xs)]: a rearrangement of [xs] fixed
    by the seed. *)
Record shuffler : Type := Shuffler {
  shuffled : Z → list string → list string;
  shuffled_perm : ∀ seed xs, shuffled seed xs ≡ₚ xs
}.

(** [assert cond, msg] *)
Definition assert (cond : bool) (msg : string) : result () :=
  if cond then Ok () else Raise (AssertionError msg).

Section init.
Context {T meta_data payload kwargs_t aug_conf : Type}.

(** The options of [hparams] the constructor reads, and the two it keeps for
    [build_spk_map] and [split_train_valid_set]. *)
Record hparams_t : Type := {
  hp_raw_data_dir : string + list string;
  hp_speakers : list string;
  hp_use_spk_id : bool;
  hp_num_spk : Z;
  hp_binarization_args : binarization_args_t;
  hp_augmentation_args : option (gmap string aug_conf);
  hp_hop_size : Z;
  hp_audio_sample_rate : Z;
  hp_seed : Z;
  hp_test_prefixes : list string
}.

(** The methods a subclass provides.  [load_meta_data raw_data_dir ds_id]
    fills [self.items]. *)
Record subclass : Type := {
  load_meta_data :
    string → nat → gmap string meta_data → result (gmap string meta_data);
  sub_process_item :
    string → meta_data → binarization_args_t → result (option (Item.t T payload));
  sub_arrange_data_augmentation :
    list (string * meta_data) →
    result (gmap string (list (task T payload kwargs_t)));
  sub_check_coverage : result ()
}.

(** Lines 74-75: [for ds_id, data_dir in enumerate(self.raw_data_dirs)]. *)
Fixpoint load_each (sub : subclass) (ds_id : nat) (raw_data_dirs : list string)
    (items : gmap string meta_data) : result (gmap string meta_data) :=
  match raw_data_dirs with
  | [] => Ok items
  | data_dir :: rest =>
      items' ← load_meta_data sub data_dir ds_id items;
      load_each sub (S ds_id) rest items'
  end.

(** Lines 46-81.  [phone_encoder] stands for
    [TokenTextEncoder(vocab_list=build_phoneme_list())], an external
    collaborator that returns or raises.  The result is the object with its
    split, and [self.item_names] as the constructor leaves it. *)
Definition init (os : orders) (rng : shuffler) (phone_encoder : result ())
    (hparams : hparams_t) (sub : subclass) (data_dir : option (string + list string))
    : result (binarizer T meta_data payload kwargs_t aug_conf * list string) :=
  let data_dir := default (hp_raw_data_dir hparams) data_dir in
  let data_dir := match data_dir with inl d => [d] | inr ds => ds end in
  let speakers := hp_speakers hparams in
  _ ← assert (bool_decide (length speakers = size (list_to_set speakers : gset string)))
        "Speakers cannot contain duplicate names";
  _ ← (if hp_use_spk_id hparams
       then assert (bool_decide (length speakers = length data_dir))
              "Number of raw data dirs must equal number of speaker names!"
       else Ok ());
  _ ← phone_encoder;
  _ ← (if decide (hp_audio_sample_rate hparams = 0)
       then Raise ZeroDivisionError else Ok ());
  items ← load_each sub 0 data_dir ∅;
  let item_names := sorted (elements (dom items)) in
  split ← split_train_valid_set os item_names (hp_test_prefixes hparams);
  let item_names :=
    if shuffle (hp_binarization_args hparams)
    then shuffled rng (hp_seed hparams) item_names else item_names in
  Ok ({| items := items;
         train_item_names := split.1;
         valid_item_names := split.2;
         binarization_args := hp_binarization_args hparams;
         augmentation_args := default ∅ (hp_augmentation_args hparams);
         speakers := speakers;
         num_spk := hp_num_spk hparams;
         process_item := sub_process_item sub;
         arrange_data_augmentation := sub_arrange_data_augmentation sub;
         check_coverage := sub_check_coverage sub |}, item_names).
End init.

Global Arguments hparams_t : clear implicits.
Global Arguments subclass : clear implicits.

End BaseBinarizer.

(** ** basics/base_task.py *)
Module BaseTask.

(** [hparams[key]] on the integer-valued options. *)
Definition getitem (hparams : gmap string Z) (key : string) : result Z :=
  match hparams !! key with
  | Some v => Ok v
  | None => Raise (KeyError key)
  end.

(** The four batch limits set by [__init__]. *)
Record batch_limits : Type := {
  max_batch_frames : Z;
  max_batch_size : Z;
  max_val_batch_frames : Z;
  max_val_batch_size : Z
}.

(** Lines 68-75 of [BaseTask.__init__]: returns the attributes of [self]
    and the global [hparams] as the constructor leaves them. *)
Definition init (hparams : gmap string Z) : result (batch_limits * gmap string Z) :=
  self_max_batch_frames ← getitem hparams "max_batch_frames";
  self_max_batch_size ← getitem hparams "max_batch_size";
  self_max_val_batch_frames ← getitem hparams "max_val_batch_frames";
  let '(hparams, self_max_val_batch_frames) :=
    if decide (self_max_val_batch_frames = -1)
    then (<["max_val_batch_frames" := self_max_batch_frames]> hparams,
          self_max_batch_frames)
    else (hparams, self_max_val_batch_frames) in
  self_max_val_batch_size ← getitem hparams "max_val_batch_size";
  let '(hparams, self_max_val_batch_size) :=
    if decide (self_max_val_batch_size = -1)
    then (<["max_val_batch_size" := self_max_batch_size]> hparams,
          self_max_batch_size)
    else (hparams, self_max_val_batch_size) in
  Ok ({| max_batch_frames := self_max_batch_frames;
         max_batch_size := self_max_batch_size;
         max_val_batch_frames := self_max_val_batch_frames;
         max_val_batch_size := self_max_val_batch_size |}, hparams).

(** *** The validation hooks *)

Section hooks.
(** [V]: logged values (tensors); [W]: weights; [M]: the state of a
    [torchmetrics.MeanMetric]; [X]: a metric of another class; [batch]: a
    sample.  The operations of the metrics are external. *)
Context {V W M X batch : Type}.
Context (mean_update : M → V → W → M) (mean_compute : M → V) (mean_reset : M → M).
Context (other_compute : X → V) (other_reset : X → X).

Inductive metric : Type :=
| MeanMetric (m : M)
| OtherMetric (x : X).

Definition compute (mt : metric) : V :=
  match mt with
  | MeanMetric m => mean_compute m
  | OtherMetric x => other_compute x
  end.

Definition reset (mt : metric) : metric :=
  match mt with
  | MeanMetric m => MeanMetric (mean_reset m)
  | OtherMetric x => OtherMetric (other_reset x)
  end.

(** Calls of [self.log] and [self.logger.log_metrics]. *)
Inductive log_call : Type :=
| Log (name : string) (value : V)
| LogMetrics (metrics : gmap string V) (step : Z).

(** The attributes of the task the hooks read and write, and the calls they
    made to the loggers. *)
Record task : Type := Task {
  skip_immediate_validation : bool;
  skip_immediate_ckpt_save : bool;
  valid_metrics : gmap string metric;
  global_step : Z;
  log_calls : list log_call
}.

(** Lines 177-179: [outputs] in the order of [outputs.items()]. *)
Fixpoint update_metrics (weight : W) (outputs : list (string * V))
    (metrics : gmap string metric) : gmap string metric * result () :=
  match outputs with
  | [] => (metrics, Ok ())
  | (k, v) :: rest =>
      match metrics !! k with
      | None => (metrics, Raise (KeyError k))
      | Some (MeanMetric m) =>
          update_metrics weight rest
            (<[k := MeanMetric (mean_update m v weight)]> metrics)
      | Some (OtherMetric _) => update_metrics weight rest metrics
      end
  end.

(** What one output does to the metric stored under its key (the body of
    the loop at lines 177-179). *)
Definition bump (weight : W) (v : V) (mt : metric) : metric :=
  match mt with
  | MeanMetric m => MeanMetric (mean_update m v weight)
  | OtherMetric x => OtherMetric x
  end.

(** Lines 166-180.  [_validation_step] is the subclass method. *)
Definition validation_step
    (_validation_step : batch → Z → result (list (string * V) * W))
    (self : task) (sample : batch) (batch_idx : Z)
    : task * result (list (string * V)) :=
  if skip_immediate_validation self then (self, Ok [])
  else
    match _validation_step sample batch_idx with
    | Raise e => (self, Raise e)
    | Ok (outputs, weight) =>
        let '(metrics, r) := update_metrics weight outputs (valid_metrics self) in
        ({| skip_immediate_validation := skip_immediate_validation self;
            skip_immediate_ckpt_save := skip_immediate_ckpt_save self;
            valid_metrics := metrics;
            global_step := global_step self;
            log_calls := log_calls self |},
         _ ← r; Ok outputs)
    end.

(** Lines 182-191 *)
Definition on_validation_epoch_end (self : task) : task * result () :=
  if skip_immediate_validation self then
    ({| skip_immediate_validation := false;
        skip_immediate_ckpt_save := true;
        valid_metrics := valid_metrics self;
        global_step := global_step self;
        log_calls := log_calls self |}, Ok ())
  else
    let metric_vals := compute <$> valid_metrics self in
    match metric_vals !! "total_loss" with
    | None => (self, Raise (KeyError "total_loss"))
    | Some val_loss =>
        ({| skip_immediate_validation := false;
            skip_immediate_ckpt_save := skip_immediate_ckpt_save self;
            valid_metrics := reset <$> valid_metrics self;
            global_step := global_step self;
            log_calls :=
              log_calls self ++
              [Log "val_loss" val_loss;
               LogMetrics (kmap (String.append "val/") metric_vals)
                 (global_step self)] |}, Ok ())
    end.

(** A value stored in a checkpoint: a string, or anything else. *)
Inductive ckpt_value {O : Type} : Type :=
| Str (s : string)
| Opaque (o : O).
Global Arguments ckpt_value : clear implicits.

(** Lines 359-362.  [category] is [Some self.model.category] when the model
    is a [CategorizedModule]; [stage] is [self.trainer.state.stage.value]. *)
Definition on_save_checkpoint {O} (category : option (ckpt_value O)) (stage : string)
    (checkpoint : gmap string (ckpt_value O)) : gmap string (ckpt_value O) :=
  let checkpoint :=
    match category with
    | Some c => <["category" := c]> checkpoint
    | None => checkpoint
    end in
  <["trainer_stage" := Str stage]> checkpoint.

(** Lines 364-367.  [validating] is [RunningStage.VALIDATING.value]. *)
Definition on_load_checkpoint {O} (validating : string) (self : task)
    (checkpoint : gmap string (ckpt_value O)) : task :=
  let same :=
    match default (Str "") (checkpoint !! "trainer_stage") with
    | Str s => bool_decide (s = validating)
    | Opaque _ => false
    end in
  if same then
    {| skip_immediate_validation := true;
       skip_immediate_ckpt_save := skip_immediate_ckpt_save self;
       valid_metrics := valid_metrics self;
       global_step := global_step self;
       log_calls := log_calls self |}
  else self.
End hooks.

Global Arguments metric : clear implicits.
Global Arguments log_call : clear implicits.
Global Arguments task : clear implicits.

(** *** [start]: the files copied to the work directory *)

Section payload.
Context {content : Type}.
(** [a / b] on paths. *)
Context (join : string → string → string).

(** [shutil.copy(src, dst)] between files. *)
Definition shutil_copy (src dst : string) (fs : gmap string content)
    : result (gmap string content) :=
  match fs !! src with
  | Some c => Ok (<[dst := c]> fs)
  | None => Raise (Exception "FileNotFoundError")
  end.

(** Lines 338-352 of the nested [train_payload_copy], on the files that
    exist; [located] is [locate_dictionary()]. *)
Definition copy_spk_map_and_dictionary (work_dir binary_dir located : string)
    (fs : gmap string content) : result (gmap string content) :=
  let spk_map := join work_dir "spk_map.json" in
  let spk_map_src := join binary_dir "spk_map.json" in
  fs ← (if bool_decide (fs !! spk_map = None) && bool_decide (is_Some (fs !! spk_map_src))
        then shutil_copy spk_map_src spk_map fs else Ok fs);
  let dictionary := join work_dir "dictionary.txt" in
  let dict_src := join binary_dir "dictionary.txt" in
  if bool_decide (fs !! dictionary = None) then
    if bool_decide (is_Some (fs !! dict_src))
    then shutil_copy dict_src dictionary fs
    else shutil_copy located dictionary fs
  else Ok fs.
End payload.

End BaseTask.

(** ** A small concrete binarizer, for running the model *)
Module Demo.
Import BaseBinarizer.

Global Instance seconds_in_ms : Duration Z :=
  {| d_zero := 0; d_add := Z.add; d_is_zero := Z.eqb 0 |}.

(** An item named [n] takes [len(n)] frames and one second. *)
Definition item (n : string) : Item.t Z () :=
  Item.Make n (Z.of_nat (String.length n)) 1000 ().

(** A task that doubles the length of a record. *)
Definition stretch : task Z () () :=
  {| func := λ r _, Item.Make (Item.name r) (2 * Item.length r)
                      (2 * Item.seconds r) ();
     kwargs := () |}.

(** Names that start with ["bad"] cannot be binarized. *)
Definition skip_bad (n : string) (_ : ()) (_ : binarization_args_t)
    : result (option (Item.t Z ())) :=
  if startswith n "bad" then Ok None else Ok (Some (item n)).

Definition binarizer_of (train valid : list string)
    (plan : gmap string (list (task Z () ()))) (aug : gmap string ())
    : binarizer Z () () () () :=
  {| items := gset_to_gmap () (list_to_set (train ++ valid));
     train_item_names := train;
     valid_item_names := valid;
     binarization_args := {| shuffle := false; num_workers := 0 |};
     augmentation_args := aug;
     speakers := ["spk"];
     num_spk := 1;
     process_item := skip_bad;
     arrange_data_augmentation := λ _, Ok plan;
     check_coverage := Ok () |}.

(** A worker pool that returns the results in submission order. *)
Definition ordered_pool
    (f : string → () → binarization_args_t → result (option (Item.t Z ())))
    (args : list (arg (meta_data := ()))) (n : Z) : stream (T := Z) (payload := ()) :=
  (omap (λ a, match f a.1.1 a.1.2 a.2 with Ok r => Some r | Raise _ => None end) args,
   Ok ()).

(** Names that start with ["broken"] make [process_item] raise. *)
Definition raise_on_broken (n : string) (m : ()) (b : binarization_args_t)
    : result (option (Item.t Z ())) :=
  if startswith n "broken" then Raise (Exception "cannot read the audio")
  else skip_bad n m b.

Definition fragile_binarizer_of (train valid : list string)
    (plan : gmap string (list (task Z () ()))) (aug : gmap string ())
    : binarizer Z () () () () :=
  {| items := gset_to_gmap () (list_to_set (train ++ valid));
     train_item_names := train;
     valid_item_names := valid;
     binarization_args := {| shuffle := false; num_workers := 0 |};
     augmentation_args := aug;
     speakers := ["spk"];
     num_spk := 1;
     process_item := raise_on_broken;
     arrange_data_augmentation := λ _, Ok plan;
     check_coverage := Ok () |}.

(** Two speakers, two raw data directories. *)
Definition duet : binarizer Z () () () () :=
  {| items := gset_to_gmap () {[ "0:la"; "1:la"; "1:mi" ]};
     train_item_names := ["0:la"; "1:mi"];
     valid_item_names := ["1:la"];
     binarization_args := {| shuffle := false; num_workers := 0 |};
     augmentation_args := ∅;
     speakers := ["opencpop"; "kiritan"];
     num_spk := 2;
     process_item := skip_bad;
     arrange_data_augmentation := λ _, Ok ∅;
     check_coverage := Ok () |}.

(** One speaker, two workers, and an augmentation plan that names a train
    item and the valid item. *)
Definition studio : binarizer Z () () () () :=
  {| items := gset_to_gmap () {[ "ab"; "bad"; "c"; "d" ]};
     train_item_names := ["ab"; "bad"; "c"];
     valid_item_names := ["d"];
     binarization_args := {| shuffle := false; num_workers := 2 |};
     augmentation_args := {[ "random_pitch_shifting" := () ]};
     speakers := ["opencpop"];
     num_spk := 1;
     process_item := skip_bad;
     arrange_data_augmentation :=
       λ _, Ok {[ "ab" := [stretch; stretch]; "d" := [stretch] ]};
     check_coverage := Ok () |}.

(** A subclass whose [load_meta_data] finds the same three files in every
    directory and keys them by dataset id. *)
Definition tagging_loader : subclass Z () () () :=
  {| load_meta_data := λ _ ds_id items,
       let tag := match ds_id with O => "0" | _ => "1" end in
       Ok (foldr (λ f, <[tag +:+ ":" +:+ f := ()]>) items ["do"; "re"; "mi"]);
     sub_process_item := skip_bad;
     sub_arrange_data_augmentation := λ _, Ok ∅;
     sub_check_coverage := Ok () |}.

Definition duet_hparams (dup : bool) (use_spk_id : bool)
    : hparams_t () :=
  {| hp_raw_data_dir := inr ["data/opencpop"; "data/kiritan"];
     hp_speakers := if dup then ["opencpop"; "opencpop"] else ["opencpop"; "kiritan"];
     hp_use_spk_id := use_spk_id;
     hp_num_spk := 2;
     hp_binarization_args := {| shuffle := true; num_workers := 0 |};
     hp_augmentation_args := None;
     hp_hop_size := 512;
     hp_audio_sample_rate := 44100;
     hp_seed := 1234;
     hp_test_prefixes := ["1:re"; "0:d"] |}.

Program Definition reversing : shuffler := Shuffler (λ _ xs, reverse xs) _.
Next Obligation. intros seed xs. apply reverse_Permutation. Qed.

(** A weighted mean kept as (weighted sum, total weight), on integers. *)
Definition mean_update (m : Z * Z) (v w : Z) : Z * Z := (m.1 + v * w, m.2 + w).
Definition mean_compute (m : Z * Z) : Z := m.1 `div` m.2.
Definition mean_reset (_ : Z * Z) : Z * Z := (0, 0).

(** A task with the base metric ['total_loss'] and a metric of another
    class. *)
Definition validating_task (skip : bool) : BaseTask.task Z (Z * Z) () :=
  {| BaseTask.skip_immediate_validation := skip;
     BaseTask.skip_immediate_ckpt_save := false;
     BaseTask.valid_metrics :=
       {[ "total_loss" := BaseTask.MeanMetric (30, 3);
          "curve" := BaseTask.OtherMetric () ]};
     BaseTask.global_step := 2000;
     BaseTask.log_calls := [] |}.

(** A [_validation_step] that reports a loss of 7 with weight 2, and with
    [extra] a second output named ['pitch_loss']. *)
Definition report_loss (extra : bool) (_ : ()) (_ : Z)
    : result (list (string * Z) * Z) :=
  Ok (if extra then [("total_loss", 7); ("pitch_loss", 5); ("curve", 1)]
      else [("total_loss", 7); ("curve", 1)], 2).

(** Paths joined with a slash. *)
Definition slash (dir name : string) : string := dir +:+ "/" +:+ name.

(** A disk with a binarized data directory and an older dictionary already
    in the work directory. *)
Definition disk : gmap string string :=
  {[ "bin/spk_map.json" := "{opencpop: 0}";
     "bin/dictionary.txt" := "a b c";
     "work/dictionary.txt" := "a b" ]}.

(** A configuration whose validation frame limit is left to inherit. *)
Definition configured : gmap string Z :=
  {[ "max_batch_frames" := 80000; "max_batch_size" := 48;
     "max_val_batch_frames" := -1; "max_val_batch_size" := 1;
     "seed" := 1234 ]}.
End Demo.

(** ** A closed form of the split, used to reason about every enumeration order *)
Module SplitSpec.

(** The three matching rules of tiers 2, 3 and 4: does [name] match [prefix]? *)
Definition by_suffix (name prefix : string) : bool :=
  bool_decide (colon_suffix name = prefix).
Definition by_start (name prefix : string) : bool := startswith name prefix.
Definition by_suffix_start (name prefix : string) : bool :=
  startswith (colon_suffix name) prefix.

Section rule.
Context (m : string → string → bool) (items : gset string).

(** Items matching one prefix, items matching some prefix of [Q], and the
    prefixes of [Q] that match some item. *)
Definition matching (p : string) : gset string := filter (λ n, m n p) items.
Definition hits (Q : gset string) : gset string :=
  filter (λ n, set_Exists (λ p, m n p) Q) items.
Definition consumed (Q : gset string) : gset string :=
  filter (λ p, matching p ≠ ∅) Q.
Definition ambiguous (Q : gset string) : Prop :=
  set_Exists (λ p, (2 ≤ size (matching p))%nat) Q.

(** The loop bodies of tiers 2 and 3 ([consume]) and of tier 4
    ([collect]) for the rule [m]. *)
Definition consume (p n : string) (st : BaseBinarizer.locals)
    : result BaseBinarizer.locals :=
  if m n p then
    prefixes' ← set_remove p st.2;
    Ok (st.1 ∪ {[n]}, prefixes')
  else Ok st.
Definition collect (p n : string) (st : BaseBinarizer.locals)
    : result BaseBinarizer.locals :=
  if m n p then Ok (st.1 ∪ {[n]}, st.2) else Ok st.
End rule.

(** [None] stands for an input with an ambiguous prefix in tier 2 or 3. *)
Definition closed_form (items P : gset string) : option (gset string) :=
  let V1 := P ∩ items in
  let P1 := P ∖ items in
  if decide (ambiguous by_suffix items P1) then None else
  let V2 := V1 ∪ hits by_suffix items P1 in
  let P2 := P1 ∖ consumed by_suffix items P1 in
  if decide (ambiguous by_start items P2) then None else
  let V3 := V2 ∪ hits by_start items P2 in
  let P3 := P2 ∖ consumed by_start items P2 in
  Some (V3 ∪ hits by_suffix_start items P3).


(** How far down the cascade a test prefix gets, read off the four loops:
    tier 2 sees the prefixes that are no item name, tier 3 those that in
    addition are no item's colon-suffix, tier 4 those that in addition start
    no item name. *)
Definition reaches_tier2 (names prefixes : list string) (p : string) : Prop :=
  p ∈ prefixes ∧ p ∉ names.
Definition reaches_tier3 (names prefixes : list string) (p : string) : Prop :=
  reaches_tier2 names prefixes p ∧ ∀ n, n ∈ names → colon_suffix n ≠ p.
Definition reaches_tier4 (names prefixes : list string) (p : string) : Prop :=
  reaches_tier3 names prefixes p ∧ ∀ n, n ∈ names → ¬ startswith n p.

End SplitSpec.

Import BaseBinarizer SplitSpec.

(** ** The model on small inputs *)

Example colon_suffix_of_tagged_name : colon_suffix "spk1:song" = "song".
Proof. reflexivity. Qed.

Example colon_suffix_of_plain_name : colon_suffix "song" = "song".
Proof. reflexivity. Qed.

Example colon_suffix_takes_last_field : colon_suffix "a:b:c" = "c".
Proof. reflexivity. Qed.

Example split_keeps_empty_fields : split ":" ":a:" = [""; "a"; ""].
Proof. reflexivity. Qed.

Example startswith_proper_prefix :
  startswith "abc1" "abc" = true ∧ startswith "ab" "abc" = false
  ∧ startswith "spk:abc2" "abc" = false.
Proof. by vm_compute. Qed.

(** The end-to-end scenario of ten items with the test prefix ["item5"]. *)
Example ten_items_one_held_out :
  split_train_valid_set (uniform ascending)
    ["item0"; "item1"; "item2"; "item3"; "item4";
     "item5"; "item6"; "item7"; "item8"; "item9"] ["item5"]
  = Ok (["item0"; "item1"; "item2"; "item3"; "item4";
         "item6"; "item7"; "item8"; "item9"], ["item5"]).
Proof. by vm_compute. Qed.

(** A prefix that no tier consumes reaches the last loop, which takes every
    item whose colon-suffix starts with it. *)
Example last_tier_takes_every_match :
  split_train_valid_set (uniform ascending)
    ["s1:take1"; "s2:take2"; "s2:other"] ["take"]
  = Ok (["s2:other"], ["s1:take1"; "s2:take2"]).
Proof. by vm_compute. Qed.

(** Two planned tasks for ["ab"]: three records and three lengths for it;
    ["bad"] is skipped; the saved array follows the builder. *)
Example fan_out_on_a_train_split :
  let r := process_dataset Demo.ordered_pool
             (Demo.binarizer_of ["ab"; "bad"; "c"] []
                {[ "ab" := [Demo.stretch; Demo.stretch] ]} {[ "pitch_shift" := () ]})
             "train" 0 true in
  Item.length <$> add_item_calls r = [2; 4; 4; 1]
  ∧ lengths_file r = Some [2; 4; 4; 1]
  ∧ finalized r = true ∧ outcome r = Ok ().
Proof. by vm_compute. Qed.

(** ** Loops *)
Section loops.
Context {A S : Type}.
Implicit Types (body : A → S → result S) (xs : list A).

Lemma for_each_ext xs body body' s :
  (∀ x t, body x t = body' x t) → for_each xs body s = for_each xs body' s.
Proof.
  intros Heq. revert s. induction xs as [|x xs IH]; intros s; cbn; [done|].
  rewrite Heq. destruct (body' x s); cbn; [apply IH|done].
Qed.

End loops.

(** ** Enumeration orders *)
Section orders.
Context (o : set_order).

Lemma elem_of_iter X x : x ∈ o X ↔ x ∈ X.
Proof. by rewrite (iter_perm o X), elem_of_elements. Qed.

Lemma NoDup_iter X : NoDup (o X).
Proof. rewrite (iter_perm o X). apply NoDup_elements. Qed.

Lemma list_to_set_iter X : list_to_set (o X) = X.
Proof. rewrite (iter_perm o X). apply list_to_set_elements_L. Qed.

Lemma iter_empty : o ∅ = [].
Proof.
  apply Permutation_nil_r. rewrite (iter_perm o ∅). by rewrite elements_empty.
Qed.

Lemma iter_singleton x : o {[x]} = [x].
Proof.
  apply Permutation_singleton_r. by rewrite (iter_perm o _), elements_singleton.
Qed.

Lemma filter_iter (P : string → Prop) `{!∀ x, Decision (P x)} X :
  filter P (o X) ≡ₚ elements (filter P X).
Proof.
  apply NoDup_Permutation.
  - apply NoDup_filter, NoDup_iter.
  - apply NoDup_elements.
  - intros x. rewrite list_elem_of_filter, elem_of_iter, elem_of_elements, elem_of_filter.
    done.
Qed.

Lemma sorted_iter X : sorted (o X) = sorted (elements X).
Proof.
  apply (Sorted_unique String.le).
  - apply (Sorted_merge_sort String.le).
  - apply (Sorted_merge_sort String.le).
  - unfold sorted. rewrite !merge_sort_Permutation. apply iter_perm.
Qed.
End orders.

(** ** The consuming loops of tiers 2 and 3, for any matching rule *)
Section consume.
Context (o : set_order) (m : string → string → bool) (items : gset string).

Lemma elem_of_matching p n : n ∈ matching m items p ↔ m n p ∧ n ∈ items.
Proof. unfold matching. by rewrite elem_of_filter. Qed.

Lemma elem_of_hits Q n :
  n ∈ hits m items Q ↔ (∃ p, p ∈ Q ∧ m n p) ∧ n ∈ items.
Proof. unfold hits. by rewrite elem_of_filter. Qed.

Lemma elem_of_consumed Q p :
  p ∈ consumed m items Q ↔ (∃ n, n ∈ items ∧ m n p) ∧ p ∈ Q.
Proof.
  unfold consumed. rewrite elem_of_filter. split; intros [H HQ]; split; try done.
  - apply set_choose_L in H as [n [Hm Hn]%elem_of_matching]. eauto.
  - destruct H as (n & Hn & Hm). intros Hempty.
    assert (n ∈ matching m items p) as Hin by (apply elem_of_matching; done).
    rewrite Hempty in Hin. set_solver.
Qed.

Lemma consume_hit p n V Pr :
  m n p →
  consume m p n (V, Pr) =
  if decide (p ∈ Pr) then Ok (V ∪ {[n]}, Pr ∖ {[p]}) else Raise (KeyError p).
Proof.
  intros Hm. unfold consume, set_remove. destruct (m n p); [|done].
  by destruct (decide (p ∈ _)).
Qed.

Lemma consume_miss p n st : ¬ m n p → consume m p n st = Ok st.
Proof. intros Hm. unfold consume. by destruct (m n p). Qed.

(** One pass of the inner loop, by the list of names that match. *)
Lemma inner_loop p names V Pr :
  for_each names (consume m p) (V, Pr) =
  match filter (λ n, m n p) names with
  | [] => Ok (V, Pr)
  | n :: rest =>
      if decide (p ∈ Pr) then
        match rest with
        | [] => Ok (V ∪ {[n]}, Pr ∖ {[p]})
        | _ :: _ => Raise (KeyError p)
        end
      else Raise (KeyError p)
  end.
Proof.
  revert V Pr. induction names as [|a names IH]; intros V Pr; [done|].
  cbn [for_each]. destruct (m a p) eqn:Ha.
  - rewrite filter_cons_True by (by rewrite Ha).
    rewrite consume_hit by (by rewrite Ha).
    destruct (decide (p ∈ Pr)) as [Hin|Hout]; cbn; [|done].
    rewrite IH. destruct (filter _ names) as [|b rest]; [done|].
    rewrite decide_False; [done|]. rewrite elem_of_difference, elem_of_singleton. tauto.
  - rewrite filter_cons_False by (rewrite Ha; intros []).
    rewrite consume_miss by (rewrite Ha; intros []). apply IH.
Qed.

(** The same pass over the item set in enumeration order, by the number of
    items that match. *)
Lemma inner_loop_none p V Pr :
  matching m items p = ∅ →
  for_each (o items) (consume m p) (V, Pr) = Ok (V, Pr).
Proof.
  intros Hm. rewrite inner_loop.
  assert (filter (λ n, m n p) (o items) = []) as ->; [|done].
  apply Permutation_nil_r. rewrite filter_iter. fold (matching m items p).
  by rewrite Hm, elements_empty.
Qed.

Lemma inner_loop_one p n V Pr :
  matching m items p = {[n]} → p ∈ Pr →
  for_each (o items) (consume m p) (V, Pr) = Ok (V ∪ {[n]}, Pr ∖ {[p]}).
Proof.
  intros Hm Hp. rewrite inner_loop.
  assert (filter (λ n, m n p) (o items) = [n]) as ->.
  { apply Permutation_singleton_r. rewrite filter_iter. fold (matching m items p).
    by rewrite Hm, elements_singleton. }
  by rewrite decide_True.
Qed.

Lemma inner_loop_many p V Pr :
  (2 ≤ size (matching m items p))%nat →
  for_each (o items) (consume m p) (V, Pr) = Raise (KeyError p).
Proof.
  intros Hsz. rewrite inner_loop.
  assert (length (filter (λ n, m n p) (o items)) = size (matching m items p)) as Hlen.
  { by rewrite filter_iter. }
  destruct (filter _ (o items)) as [|a [|b rest]]; simpl in Hlen; [lia..|].
  by destruct (decide (p ∈ Pr)).
Qed.

Lemma matching_cases p :
  matching m items p = ∅ ∨ (∃ n, matching m items p = {[n]})
  ∨ (2 ≤ size (matching m items p))%nat.
Proof.
  destruct (size (matching m items p)) as [|[|k]] eqn:Hsz.
  - left. by apply size_empty_iff, leibniz_equiv in Hsz.
  - right; left. apply size_1_elem_of in Hsz as [n Hn]. exists n.
    by apply leibniz_equiv.
  - right; right. lia.
Qed.

Lemma hits_empty : hits m items ∅ = ∅.
Proof. apply set_eq; intros x. rewrite elem_of_hits. set_solver. Qed.

Lemma hits_singleton p : hits m items {[p]} = matching m items p.
Proof.
  apply set_eq; intros x. rewrite elem_of_hits, elem_of_matching.
  split; [intros [(q & ->%elem_of_singleton & ?) ?]; done|].
  intros [? ?]. split; [|done]. exists p. by rewrite elem_of_singleton.
Qed.

Lemma hits_union Q1 Q2 : hits m items (Q1 ∪ Q2) = hits m items Q1 ∪ hits m items Q2.
Proof.
  apply set_eq; intros x. rewrite elem_of_union, !elem_of_hits. split.
  - intros [(q & [?|?]%elem_of_union & ?) ?]; [left|right]; eauto.
  - intros [[(q & ? & ?) ?]|[(q & ? & ?) ?]]; (split; [exists q|done]);
      rewrite elem_of_union; auto.
Qed.

Lemma consumed_empty : consumed m items ∅ = ∅.
Proof. apply set_eq; intros x. rewrite elem_of_consumed. set_solver. Qed.

Lemma consumed_singleton p :
  consumed m items {[p]} = if decide (matching m items p = ∅) then ∅ else {[p]}.
Proof.
  unfold consumed. apply set_eq; intros x. rewrite elem_of_filter, elem_of_singleton.
  destruct (decide (matching m items p = ∅)) as [He|Hne].
  - rewrite elem_of_empty. split; [|done]. by intros [? ->].
  - rewrite elem_of_singleton. split; [tauto|]. by intros ->.
Qed.

Lemma consumed_union Q1 Q2 :
  consumed m items (Q1 ∪ Q2) = consumed m items Q1 ∪ consumed m items Q2.
Proof.
  unfold consumed. apply set_eq; intros x.
  rewrite elem_of_union, !elem_of_filter, elem_of_union. tauto.
Qed.

(** The outer loop over the prefixes still in [Pr]. *)
Lemma outer_loop ps V Pr :
  NoDup ps → (∀ p, p ∈ ps → p ∈ Pr) →
  Forall (λ p, (size (matching m items p) ≤ 1)%nat) ps →
  for_each ps (λ p, for_each (o items) (consume m p)) (V, Pr) =
  Ok (V ∪ hits m items (list_to_set ps), Pr ∖ consumed m items (list_to_set ps)).
Proof.
  revert V Pr. induction ps as [|p ps IH]; intros V Pr Hnd Hin Hsz.
  - cbn. rewrite hits_empty, consumed_empty. f_equal. f_equal; set_solver.
  - apply NoDup_cons in Hnd as [Hp Hnd]. apply Forall_cons in Hsz as [Hp1 Hsz].
    cbn [for_each]. rewrite list_to_set_cons, hits_union, consumed_union.
    rewrite hits_singleton, consumed_singleton.
    destruct (matching_cases p) as [Hnone|[[n Hone]|Hmany]]; [| |lia].
    + rewrite inner_loop_none by done. cbn. rewrite IH; [|done|set_solver|done].
      rewrite Hnone, decide_True by done. f_equal. f_equal; set_solver.
    + rewrite (inner_loop_one p n) by set_solver. cbn.
      rewrite IH; [|done| |done].
      2:{ intros q Hq. apply elem_of_difference. split; [set_solver|].
          rewrite elem_of_singleton. intros ->. done. }
      rewrite Hone, decide_False by set_solver. f_equal. f_equal; set_solver.
Qed.

Lemma outer_loop_raise ps V Pr :
  NoDup ps → (∀ p, p ∈ ps → p ∈ Pr) →
  Exists (λ p, (2 ≤ size (matching m items p))%nat) ps →
  ∃ k, k ∈ ps ∧
    for_each ps (λ p, for_each (o items) (consume m p)) (V, Pr) = Raise (KeyError k).
Proof.
  revert V Pr. induction ps as [|p ps IH]; intros V Pr Hnd Hin Hex.
  - by apply Exists_nil in Hex.
  - apply NoDup_cons in Hnd as [Hp Hnd]. cbn [for_each].
    destruct (matching_cases p) as [Hnone|[[n Hone]|Hmany]].
    + rewrite inner_loop_none by done. cbn.
      apply Exists_cons in Hex as [Hex|Hex].
      { rewrite Hnone, size_empty in Hex. lia. }
      destruct (IH V Pr) as (k & Hk & ->); [done|set_solver|done|].
      exists k. split; [by right|done].
    + rewrite (inner_loop_one p n) by set_solver. cbn.
      apply Exists_cons in Hex as [Hex|Hex].
      { rewrite Hone, size_singleton in Hex. lia. }
      destruct (IH (V ∪ {[n]}) (Pr ∖ {[p]})) as (k & Hk & ->); [done| |done|].
      { intros q Hq. apply elem_of_difference. split; [set_solver|].
        rewrite elem_of_singleton. intros ->. done. }
      exists k. split; [by right|done].
    + rewrite inner_loop_many by done. exists p. split; [by left|done].
Qed.
End consume.

(** ** The four tiers of [split_train_valid_set] in closed form *)
Section tiers.
Context (os : orders) (items : gset string).

Lemma tier2_body_consume p n st : tier2_body p n st = consume by_suffix p n st.
Proof.
  destruct st as [V Pr]. unfold tier2_body, consume, by_suffix. cbn.
  destruct (decide (colon_suffix n = p)) as [He|He].
  - by rewrite bool_decide_true.
  - by rewrite bool_decide_false.
Qed.

Lemma tier3_body_consume p n st : tier3_body p n st = consume by_start p n st.
Proof. by destruct st. Qed.

Lemma tier4_body_collect p n st : tier4_body p n st = collect by_suffix_start p n st.
Proof. by destruct st. Qed.

Lemma tier1_loop ps V Pr :
  NoDup ps → (∀ p, p ∈ ps → p ∈ Pr) →
  for_each ps (tier1_body items) (V, Pr) =
  Ok (V ∪ (list_to_set ps ∩ items), Pr ∖ (list_to_set ps ∩ items)).
Proof.
  revert V Pr. induction ps as [|p ps IH]; intros V Pr Hnd Hin.
  - cbn. f_equal. f_equal; set_solver.
  - apply NoDup_cons in Hnd as [Hp Hnd]. cbn [for_each tier1_body].
    destruct (decide (p ∈ items)) as [Hi|Hi].
    + unfold set_remove. rewrite decide_True by set_solver. cbn.
      rewrite IH; [|done|].
      2:{ intros q Hq. apply elem_of_difference. split; [set_solver|].
          rewrite elem_of_singleton. intros ->. done. }
      f_equal. f_equal; set_solver.
    + cbn. rewrite IH; [|done|set_solver]. f_equal. f_equal; set_solver.
Qed.

Lemma tier1_closed V Pr :
  tier1 os items (V, Pr) = Ok (V ∪ (Pr ∩ items), Pr ∖ items).
Proof.
  unfold tier1. cbn [snd]. rewrite tier1_loop.
  - rewrite list_to_set_iter. f_equal. f_equal; set_solver.
  - apply NoDup_iter.
  - intros p. by rewrite elem_of_iter.
Qed.

Lemma consuming_tier_ok (op oi : set_order) m V Pr :
  ¬ ambiguous m items Pr →
  for_each (op Pr) (λ p, for_each (oi items) (consume m p)) (V, Pr) =
  Ok (V ∪ hits m items Pr, Pr ∖ consumed m items Pr).
Proof.
  intros Hamb. rewrite (outer_loop oi m items).
  - by rewrite list_to_set_iter.
  - apply NoDup_iter.
  - intros p. by rewrite elem_of_iter.
  - apply Forall_forall. intros p Hp%elem_of_iter.
    destruct (decide (size (matching m items p) ≤ 1)%nat); [done|].
    destruct Hamb. exists p. split; [done|lia].
Qed.

Lemma consuming_tier_raise (op oi : set_order) m V Pr :
  ambiguous m items Pr →
  ∃ k, k ∈ Pr ∧
    for_each (op Pr) (λ p, for_each (oi items) (consume m p)) (V, Pr) =
    Raise (KeyError k).
Proof.
  intros (p & Hp & Hsz).
  destruct (outer_loop_raise oi m items (op Pr) V Pr) as (k & Hk & Hr).
  - apply NoDup_iter.
  - intros q. by rewrite elem_of_iter.
  - apply Exists_exists. exists p. by rewrite elem_of_iter.
  - exists k. by rewrite <-(elem_of_iter op).
Qed.

Lemma tier2_ok V Pr :
  ¬ ambiguous by_suffix items Pr →
  tier2 os items (V, Pr) =
  Ok (V ∪ hits by_suffix items Pr, Pr ∖ consumed by_suffix items Pr).
Proof.
  intros Hamb.
  rewrite <-(consuming_tier_ok (os PrefixesCopy2) (os ItemNames) _ V Pr Hamb).
  unfold tier2. cbn [snd].
  apply for_each_ext. intros p t. apply for_each_ext, tier2_body_consume.
Qed.

Lemma tier2_raise V Pr :
  ambiguous by_suffix items Pr →
  ∃ k, k ∈ Pr ∧ tier2 os items (V, Pr) = Raise (KeyError k).
Proof.
  intros Hamb.
  destruct (consuming_tier_raise (os PrefixesCopy2) (os ItemNames) _ V Pr Hamb)
    as (k & Hk & Hr).
  exists k. split; [done|]. rewrite <-Hr. unfold tier2. cbn [snd].
  apply for_each_ext. intros p t. apply for_each_ext, tier2_body_consume.
Qed.

Lemma tier3_ok V Pr :
  ¬ ambiguous by_start items Pr →
  tier3 os items (V, Pr) =
  Ok (V ∪ hits by_start items Pr, Pr ∖ consumed by_start items Pr).
Proof.
  intros Hamb.
  rewrite <-(consuming_tier_ok (os PrefixesCopy3) (os ItemNames) _ V Pr Hamb).
  unfold tier3. cbn [snd].
  apply for_each_ext. intros p t. apply for_each_ext, tier3_body_consume.
Qed.

Lemma tier3_raise V Pr :
  ambiguous by_start items Pr →
  ∃ k, k ∈ Pr ∧ tier3 os items (V, Pr) = Raise (KeyError k).
Proof.
  intros Hamb.
  destruct (consuming_tier_raise (os PrefixesCopy3) (os ItemNames) _ V Pr Hamb)
    as (k & Hk & Hr).
  exists k. split; [done|]. rewrite <-Hr. unfold tier3. cbn [snd].
  apply for_each_ext. intros p t. apply for_each_ext, tier3_body_consume.
Qed.

Lemma collect_loop m p names V Pr :
  for_each names (collect m p) (V, Pr) =
  Ok (V ∪ list_to_set (filter (λ n, m n p) names), Pr).
Proof.
  revert V. induction names as [|a names IH]; intros V.
  - cbn. f_equal. f_equal. set_solver.
  - cbn [for_each]. destruct (m a p) eqn:Ha.
    + assert (collect m p a (V, Pr) = Ok (V ∪ {[a]}, Pr)) as ->.
      { unfold collect. by rewrite Ha. }
      cbn [mbind result_bind]. rewrite IH, filter_cons_True by (by rewrite Ha).
      f_equal. f_equal. set_solver.
    + assert (collect m p a (V, Pr) = Ok (V, Pr)) as ->.
      { unfold collect. by rewrite Ha. }
      cbn [mbind result_bind].
      rewrite IH, filter_cons_False by (rewrite Ha; intros []). done.
Qed.

Lemma collect_outer (oi : set_order) m ps V Pr :
  for_each ps (λ p, for_each (oi items) (collect m p)) (V, Pr) =
  Ok (V ∪ hits m items (list_to_set ps), Pr).
Proof.
  revert V. induction ps as [|p ps IH]; intros V.
  - cbn. rewrite hits_empty. f_equal. f_equal. set_solver.
  - cbn [for_each]. rewrite collect_loop. cbn [mbind result_bind]. rewrite IH.
    rewrite list_to_set_cons, hits_union, hits_singleton.
    rewrite (filter_iter oi (λ n, m n p) items). fold (matching m items p).
    rewrite list_to_set_elements_L. f_equal. f_equal. set_solver.
Qed.

Lemma tier4_closed V Pr :
  tier4 os items (V, Pr) = Ok (V ∪ hits by_suffix_start items Pr, Pr).
Proof.
  rewrite <-(list_to_set_iter (os Prefixes) Pr) at 2.
  rewrite <-(collect_outer (os ItemNames)).
  unfold tier4. cbn [snd].
  apply for_each_ext. intros p t. apply for_each_ext, tier4_body_collect.
Qed.

(** The valid set computed by the four loops, for every enumeration order. *)
Lemma valid_set_closed_form test_prefixes :
  match closed_form items (list_to_set test_prefixes) with
  | Some V => valid_set os items test_prefixes = Ok V
  | None => ∃ k, k ∈ test_prefixes ∧
              valid_set os items test_prefixes = Raise (KeyError k)
  end.
Proof.
  unfold closed_form, valid_set. rewrite tier1_closed. cbn [mbind result_bind].
  set (P := list_to_set test_prefixes : gset string).
  destruct (decide (ambiguous by_suffix items (P ∖ items))) as [H2|H2].
  { destruct (tier2_raise (∅ ∪ P ∩ items) _ H2) as (k & Hk & ->).
    exists k. split; [|done]. apply elem_of_difference in Hk as [Hk _].
    by apply elem_of_list_to_set in Hk. }
  rewrite tier2_ok by done. cbn [mbind result_bind].
  destruct (decide (ambiguous by_start items _)) as [H3|H3].
  { destruct (tier3_raise (∅ ∪ P ∩ items ∪ hits by_suffix items (P ∖ items)) _ H3)
      as (k & Hk & ->).
    exists k. split; [|done]. apply elem_of_difference in Hk as [Hk _].
    apply elem_of_difference in Hk as [Hk _].
    by apply elem_of_list_to_set in Hk. }
  rewrite tier3_ok by done. cbn [mbind result_bind].
  rewrite tier4_closed. cbn. f_equal. set_solver.
Qed.
End tiers.

(** ** [split_train_valid_set] *)
Section split_train_valid_set.
Context (os : orders).

Lemma list_to_set_sorted (xs : list string) :
  list_to_set (C := gset string) (sorted xs) = list_to_set xs.
Proof. unfold sorted. by rewrite merge_sort_Permutation. Qed.

Lemma split_closed_form names prefixes :
  match closed_form (list_to_set names) (list_to_set prefixes) with
  | Some V =>
      split_train_valid_set os names prefixes =
      Ok (filter (λ x, x ∉ V) (os ItemNames (list_to_set names)),
          sorted (elements V))
  | None =>
      ∃ k, k ∈ prefixes ∧
        split_train_valid_set os names prefixes = Raise (KeyError k)
  end.
Proof.
  pose proof (valid_set_closed_form os (list_to_set names) prefixes) as Hv.
  unfold split_train_valid_set.
  destruct (closed_form _ _) as [V|].
  - rewrite Hv. cbn [mbind result_bind].
    by rewrite list_to_set_sorted, list_to_set_iter, sorted_iter.
  - destruct Hv as (k & Hk & ->). by exists k.
Qed.

(** The function returns exactly on the inputs without an ambiguous prefix. *)
Lemma split_returns_iff names prefixes :
  returns (split_train_valid_set os names prefixes) ↔
  is_Some (closed_form (list_to_set names) (list_to_set prefixes)).
Proof.
  pose proof (split_closed_form names prefixes) as H.
  destruct (closed_form _ _) as [V|].
  - split; [by eauto|]. intros _. rewrite H. by eexists.
  - destruct H as (k & _ & ->). split; [by intros [? ?]|by intros [? ?]].
Qed.

Lemma closed_form_subseteq items P V : closed_form items P = Some V → V ⊆ items.
Proof.
  unfold closed_form. repeat case_decide; [done..|]. intros [= <-].
  intros x. rewrite !elem_of_union, !elem_of_hits. set_solver.
Qed.

(** Whenever the function returns, its two results partition the item names. *)
Lemma split_partition names prefixes train valid :
  split_train_valid_set os names prefixes = Ok (train, valid) →
  (∀ x, x ∈ names ↔ x ∈ train ∨ x ∈ valid) ∧
  (∀ x, x ∈ train → x ∉ valid) ∧
  NoDup train ∧ NoDup valid.
Proof.
  pose proof (split_closed_form names prefixes) as H.
  destruct (closed_form _ _) as [V|] eqn:Hcf; [|by destruct H as (k & _ & ->)].
  rewrite H. intros [= <- <-]. apply closed_form_subseteq in Hcf.
  assert (∀ x, x ∈ sorted (elements V) ↔ x ∈ V) as Hvalid.
  { intros x. unfold sorted. by rewrite merge_sort_Permutation, elem_of_elements. }
  repeat split.
  - intros Hx. rewrite list_elem_of_filter, elem_of_iter, elem_of_list_to_set, Hvalid.
    destruct (decide (x ∈ V)); auto.
  - rewrite list_elem_of_filter, elem_of_iter, elem_of_list_to_set, Hvalid.
    intros [[_ ?]|Hx]; [done|]. apply Hcf in Hx. by apply elem_of_list_to_set in Hx.
  - intros x. rewrite list_elem_of_filter, Hvalid. tauto.
  - apply NoDup_filter, NoDup_iter.
  - unfold sorted. rewrite merge_sort_Permutation. apply NoDup_elements.
Qed.
End split_train_valid_set.

(** The valid sequence is sorted and the same under every enumeration order;
    the train sequences of two orders hold the same names. *)
Lemma split_valid_order_independent (os1 os2 : orders) names prefixes train1 valid1 :
  split_train_valid_set os1 names prefixes = Ok (train1, valid1) →
  ∃ train2,
    split_train_valid_set os2 names prefixes = Ok (train2, valid1) ∧
    train1 ≡ₚ train2 ∧ Sorted String.le valid1.
Proof.
  pose proof (split_closed_form os1 names prefixes) as H1.
  pose proof (split_closed_form os2 names prefixes) as H2.
  destruct (closed_form _ _) as [V|]; [|by destruct H1 as (k & _ & ->)].
  rewrite H1. intros [= <- <-]. eexists. split; [exact H2|]. split.
  - by rewrite !filter_iter.
  - apply (Sorted_merge_sort String.le).
Qed.

(** C5. Items ["spk1:a"] and ["a"] with the single test prefix ["a"]: under
    every enumeration order the valid sequence is exactly [["a"]] and
    ["spk1:a"] stays in train, because the exact-match loop removes the
    prefix before the colon-suffix loop runs. *)
Theorem exact_match_takes_precedence (os : orders) :
  split_train_valid_set os ["a"; "spk1:a"] ["a"] = Ok (["spk1:a"], ["a"]).
Proof.
  pose proof (split_closed_form os ["a"; "spk1:a"] ["a"]) as H.
  assert (closed_form (list_to_set ["a"; "spk1:a"]) (list_to_set ["a"])
          = Some {["a"]}) as Hcf by (vm_compute; reflexivity).
  rewrite Hcf in H. rewrite H.
  assert (filter (λ x, x ∉ ({["a"]} : gset string))
            (os ItemNames (list_to_set ["a"; "spk1:a"]))
          = ["spk1:a"]) as ->.
  { apply Permutation_singleton_r. rewrite filter_iter. by vm_compute. }
  by vm_compute.
Qed.

(** C2. Items ["spk1:song"] and ["spk2:song"] with the test prefix ["song"]:
    the colon-suffix loop matches both names, and its second
    [prefixes.remove(prefix)] raises [KeyError] under every enumeration
    order, so no split is returned. *)
Theorem colon_suffix_tier_second_match_raises (os : orders) :
  split_train_valid_set os ["spk1:song"; "spk2:song"] ["song"]
  = Raise (KeyError "song").
Proof.
  pose proof (split_closed_form os ["spk1:song"; "spk2:song"] ["song"]) as H.
  assert (closed_form (list_to_set ["spk1:song"; "spk2:song"]) (list_to_set ["song"])
          = None) as Hcf by (vm_compute; reflexivity).
  rewrite Hcf in H. destruct H as (k & Hk & ->).
  apply list_elem_of_singleton in Hk as ->. done.
Qed.

(** C1. On the item names ["a:x"], ["b:x"], ["c"] with the test prefix ["x"]
    the call ends in [KeyError] whatever the enumeration order: no pair is
    returned, so there is no train/valid partition for this input. *)
Theorem split_raises_on_shared_suffix (os : orders) :
  split_train_valid_set os ["a:x"; "b:x"; "c"] ["x"] = Raise (KeyError "x").
Proof.
  pose proof (split_closed_form os ["a:x"; "b:x"; "c"] ["x"]) as H.
  assert (closed_form (list_to_set ["a:x"; "b:x"; "c"]) (list_to_set ["x"])
          = None) as Hcf by (vm_compute; reflexivity).
  rewrite Hcf in H. destruct H as (k & Hk & ->).
  apply list_elem_of_singleton in Hk as ->. done.
Qed.

(** C3. On the item names ["abc1"] and ["abc2"] with the test prefix ["abc"]
    (no item name, no colon-suffix of one) the startswith loop does not stop
    after its first hit: the second matching name calls
    [prefixes.remove(prefix)] again, and the call ends in [KeyError]
    under every enumeration order instead of returning a split. *)
Theorem startswith_tier_second_match_raises (os : orders) :
  split_train_valid_set os ["abc1"; "abc2"] ["abc"] = Raise (KeyError "abc").
Proof.
  pose proof (split_closed_form os ["abc1"; "abc2"] ["abc"]) as H.
  assert (closed_form (list_to_set ["abc1"; "abc2"]) (list_to_set ["abc"])
          = None) as Hcf by (vm_compute; reflexivity).
  rewrite Hcf in H. destruct H as (k & Hk & ->).
  apply list_elem_of_singleton in Hk as ->. done.
Qed.

Lemma closed_form_single_start (names : list string) (p n : string) :
  p ∉ names →
  (∀ x, x ∈ names → colon_suffix x ≠ p) →
  n ∈ names → startswith n p →
  (∀ x, x ∈ names → startswith x p → x = n) →
  closed_form (list_to_set names) (list_to_set [p]) = Some {[n]}.
Proof.
  intros Hp Hsuf Hn Hnp Huniq. unfold closed_form.
  set (items := list_to_set names : gset string).
  assert (list_to_set [p] ∖ items = {[p]}) as -> by set_solver.
  assert (list_to_set [p] ∩ items = ∅) as -> by set_solver.
  assert (matching by_suffix items p = ∅) as M2.
  { apply set_eq; intros x. rewrite elem_of_matching, elem_of_empty.
    unfold by_suffix. rewrite bool_decide_spec. subst items.
    rewrite elem_of_list_to_set. naive_solver. }
  assert (matching by_start items p = {[n]}) as M3.
  { apply set_eq; intros x. rewrite elem_of_matching, elem_of_singleton.
    unfold by_start. subst items. rewrite elem_of_list_to_set. naive_solver. }
  assert (consumed by_suffix items {[p]} = ∅) as C2.
  { rewrite consumed_singleton, M2. by rewrite decide_True. }
  assert (consumed by_start items {[p]} = {[p]}) as C3.
  { rewrite consumed_singleton, M3. rewrite decide_False; [done|].
    intros He. assert (n ∈ (∅ : gset string)) as []%elem_of_empty.
    rewrite <-He. by apply elem_of_singleton. }
  rewrite decide_False.
  2:{ intros (q & ->%elem_of_singleton & Hsz). rewrite M2, size_empty in Hsz. lia. }
  rewrite C2, difference_empty_L.
  rewrite decide_False.
  2:{ intros (q & ->%elem_of_singleton & Hsz). rewrite M3, size_singleton in Hsz. lia. }
  rewrite C3, !hits_singleton, M2, M3.
  assert (({[p]} : gset string) ∖ {[p]} = ∅) as -> by set_solver.
  rewrite hits_empty. f_equal. set_solver.
Qed.

(** The startswith loop with a single hit.  When a single test prefix is no
    item name, is no item's colon-suffix, and exactly one item name [n]
    starts with it, the loop adds [n] and removes the prefix: the call
    returns, the valid sequence is [[n]] alone (the last loop sees no prefix
    any more), and train holds every other name. *)
Lemma startswith_tier_single_hit (os : orders) (names : list string) (p n : string) :
  p ∉ names →
  (∀ x, x ∈ names → colon_suffix x ≠ p) →
  n ∈ names → startswith n p →
  (∀ x, x ∈ names → startswith x p → x = n) →
  split_train_valid_set os names [p]
  = Ok (filter (λ x, x ≠ n) (os ItemNames (list_to_set names)), [n]).
Proof.
  intros Hp Hsuf Hn Hnp Huniq.
  pose proof (split_closed_form os names [p]) as H.
  rewrite (closed_form_single_start names p n) in H by done.
  rewrite H, elements_singleton. f_equal. f_equal.
  apply list_filter_iff. intros x. by rewrite elem_of_singleton.
Qed.

Lemma startswith_tier_single_hit_witness :
  split_train_valid_set (uniform ascending) ["abc1"; "spk:abc2"] ["abc"]
  = Ok (["spk:abc2"], ["abc1"]).
Proof.
  apply (startswith_tier_single_hit (uniform ascending)
           ["abc1"; "spk:abc2"] "abc" "abc1").
  - compute_done.
  - apply (Forall_forall (λ x, colon_suffix x ≠ "abc")). compute_done.
  - compute_done.
  - compute_done.
  - apply (Forall_forall (λ x, startswith x "abc" → x = "abc1")). compute_done.
Defined.

(** ** [process_dataset] *)
Section process_dataset.
Context {T : Type} `{Duration T} {meta_data payload kwargs_t aug_conf : Type}.
Context (pool :
  (string → meta_data → binarization_args_t → result (option (Item.t T payload))) →
  list (arg (meta_data := meta_data)) → Z → stream (T := T) (payload := payload)).
Implicit Types (self : binarizer T meta_data payload kwargs_t aug_conf).
Implicit Types (st : closure T payload) (r : Item.t T payload).
Implicit Types (aug_map : gmap string (list (task T payload kwargs_t))).

Lemma foldl_add_augmented r (tasks : list (task T payload kwargs_t)) st :
  let derived := (λ t, func t r (kwargs t)) <$> tasks in
  builder (foldl (add_augmented r) st tasks) = builder st ++ derived
  ∧ lengths (foldl (add_augmented r) st tasks)
    = lengths st ++ (Item.length <$> derived)
  ∧ total_raw_sec (foldl (add_augmented r) st tasks) = total_raw_sec st.
Proof.
  revert st. induction tasks as [|t tasks IH]; intros st; cbn.
  - by rewrite !app_nil_r.
  - destruct (IH (add_augmented r st t)) as (-> & -> & ->). cbn.
    by rewrite <-!app_assoc.
Qed.

Lemma postprocess_in_step aug_map st item :
  in_step st → in_step (postprocess aug_map st item).
Proof.
  unfold in_step. intros Hst. destruct item as [r|]; [|done]. cbn.
  destruct (foldl_add_augmented r (default [] (aug_map !! Item.name r))
              (add_base st r)) as (-> & -> & _).
  cbn. rewrite Hst, !fmap_app. cbn. by rewrite <-!app_assoc.
Qed.

Lemma foldl_postprocess_in_step aug_map results st :
  in_step st → in_step (foldl (postprocess aug_map) st results).
Proof.
  revert st. induction results as [|x xs IH]; intros st Hst; [done|].
  cbn. by apply IH, postprocess_in_step.
Qed.

Lemma sequential_loop_in_step self aug_map args st :
  in_step st → in_step (sequential_loop self aug_map args st).1.
Proof.
  revert st. induction args as [|[[n md] b] args IH]; intros st Hst; [done|].
  cbn. destruct (process_item self n md b); [|done].
  by apply IH, postprocess_in_step.
Qed.

(** C6. In every run of [process_dataset], the array saved to
    [{prefix}.lengths] is, in order, the ['length'] of each record handed
    to [builder.add_item] in that run; no array is saved only when the run
    was cut short by an exception. *)
Theorem lengths_file_round_trip self (prefix : string) (workers : Z) (augment : bool) :
  let r := process_dataset pool self prefix workers augment in
  match lengths_file r with
  | Some saved => saved = Item.length <$> add_item_calls r
  | None => ∃ e, outcome r = Raise e
  end.
Proof.
  unfold process_dataset.
  destruct (meta_data_iterator self prefix) as [metas|e]; [|by cbn; eauto].
  destruct (if augment then _ else _) as [aug_map|e]; [|by cbn; eauto].
  destruct (decide (0 < workers)).
  - unfold parallel_loop. destruct (pool _ _ _) as [results ending]. cbn.
    destruct ending as [[]|e]; cbn; [|by eauto].
    by apply foldl_postprocess_in_step.
  - pose proof (sequential_loop_in_step self aug_map
      ((λ nm, (nm.1, nm.2, binarization_args self)) <$> metas) fresh) as Hinv.
    destruct (sequential_loop _ _ _ _) as [st [[]|e]]; cbn; [|by eauto].
    by apply Hinv.
Qed.

(** One call of [postprocess] on a non-null result [r]: the builder and
    [lengths] grow by [r] itself, then by one record per task planned under
    the name of [r], each derived from [r]. *)
Lemma postprocess_fan_out aug_map st r :
  let tasks := default [] (aug_map !! Item.name r) in
  let derived := (λ t, func t r (kwargs t)) <$> tasks in
  let st' := postprocess aug_map st (Some r) in
  builder st' = builder st ++ r :: derived
  ∧ lengths st' = lengths st ++ Item.length r :: (Item.length <$> derived)
  ∧ length (builder st') = (length (builder st) + (length tasks + 1))%nat
  ∧ length (lengths st') = (length (lengths st) + (length tasks + 1))%nat.
Proof.
  cbn zeta. unfold postprocess.
  destruct (foldl_add_augmented r (default [] (aug_map !! Item.name r))
              (add_base st r)) as (-> & -> & _).
  cbn. rewrite <-!app_assoc. cbn. repeat split.
  - rewrite length_app. cbn. rewrite length_fmap. lia.
  - rewrite length_app. cbn. rewrite !length_fmap. lia.
Qed.

Lemma sequential_loop_app self aug_map xs ys st :
  sequential_loop self aug_map (xs ++ ys) st =
  match sequential_loop self aug_map xs st with
  | (st', Ok _) => sequential_loop self aug_map ys st'
  | (st', Raise e) => (st', Raise e)
  end.
Proof.
  revert st. induction xs as [|[[n md] b] xs IH]; intros st; [done|].
  cbn. destruct (process_item self n md b); [apply IH|done].
Qed.

(** C8. An item for which [process_item] returns [None] leaves the builder,
    [lengths] and both duration counters as they were (so no task ran for
    it: each task run ends in an [add_item]), raises nothing, and the loop
    goes on exactly as if the item were not in the split; the same holds
    for a [None] handed over by the worker pool. *)
Theorem null_result_is_skipped self aug_map st
    (before after : list arg) (item_name : string) (meta : meta_data)
    (bargs : binarization_args_t)
    (results1 results2 : list (option (Item.t T payload))) (ending : result ()) :
  process_item self item_name meta bargs = Ok None →
  postprocess aug_map st None = st
  ∧ sequential_loop self aug_map (before ++ (item_name, meta, bargs) :: after) st
    = sequential_loop self aug_map (before ++ after) st
  ∧ parallel_loop aug_map (results1 ++ None :: results2, ending) st
    = parallel_loop aug_map (results1 ++ results2, ending) st.
Proof.
  intros Hnone. split; [done|]. split.
  - rewrite !sequential_loop_app.
    destruct (sequential_loop self aug_map before st) as [st' [[]|e]]; [|done].
    cbn. by rewrite Hnone.
  - unfold parallel_loop. cbn. by rewrite !foldl_app.
Qed.

End process_dataset.

Lemma null_result_is_skipped_witness :
  let self := Demo.binarizer_of ["ok"; "bad1"; "fine"] [] ∅ ∅ in
  let b := binarization_args self in
  let no_plan : gmap string (list (task Z () ())) := ∅ in
  let st : closure Z () := fresh in
  postprocess no_plan st None = st
  ∧ sequential_loop self no_plan
      ([("ok", (), b)] ++ ("bad1", (), b) :: [("fine", (), b)]) st
    = sequential_loop self no_plan ([("ok", (), b)] ++ [("fine", (), b)]) st
  ∧ parallel_loop no_plan
      ([Some (Demo.item "ok")] ++ None :: [Some (Demo.item "fine")], Ok ()) st
    = parallel_loop no_plan
        ([Some (Demo.item "ok")] ++ [Some (Demo.item "fine")], Ok ()) st.
Proof.
  intros self b no_plan st.
  apply (null_result_is_skipped self no_plan st
           [("ok", (), b)] [("fine", (), b)] "bad1" () b
           [Some (Demo.item "ok")] [Some (Demo.item "fine")] (Ok ())).
  reflexivity.
Defined.

(** C4. With the two item names ["a"] and ["bb"] and no test prefix, a run
    whose sets enumerate in ascending order and a run whose sets enumerate in
    descending order return different train sequences (the second one is not
    sorted), and on a single CPU the saved [train.lengths] differ with them. *)
Theorem train_order_follows_set_order :
  split_train_valid_set (uniform ascending) ["a"; "bb"] [] = Ok (["a"; "bb"], [])
  ∧ split_train_valid_set (uniform descending) ["a"; "bb"] [] = Ok (["bb"; "a"], [])
  ∧ lengths_file (process_dataset Demo.ordered_pool
                    (Demo.binarizer_of ["a"; "bb"] [] ∅ ∅) "train" 0 false)
    = Some [1; 2]
  ∧ lengths_file (process_dataset Demo.ordered_pool
                    (Demo.binarizer_of ["bb"; "a"] [] ∅ ∅) "train" 0 false)
    = Some [2; 1].
Proof. repeat split; vm_compute; reflexivity. Qed.

(** ** [BaseTask.__init__] *)
Section base_task.
Import BaseTask.

(** C9. With the four limits configured as [frames], [size], [val_frames]
    and [val_size], the constructor keeps the two train limits, replaces a
    validation limit of [-1] by the matching train limit (in [self] and in
    [hparams]) and keeps any other validation limit; no other option of
    [hparams] changes. *)
Theorem validation_limits_inherit (hparams : gmap string Z)
    (frames size val_frames val_size : Z) :
  hparams !! "max_batch_frames" = Some frames →
  hparams !! "max_batch_size" = Some size →
  hparams !! "max_val_batch_frames" = Some val_frames →
  hparams !! "max_val_batch_size" = Some val_size →
  let val_frames' := if decide (val_frames = -1) then frames else val_frames in
  let val_size' := if decide (val_size = -1) then size else val_size in
  ∃ hparams',
    init hparams
    = Ok ({| max_batch_frames := frames; max_batch_size := size;
             max_val_batch_frames := val_frames';
             max_val_batch_size := val_size' |}, hparams')
    ∧ hparams' !! "max_batch_frames" = Some frames
    ∧ hparams' !! "max_batch_size" = Some size
    ∧ hparams' !! "max_val_batch_frames" = Some val_frames'
    ∧ hparams' !! "max_val_batch_size" = Some val_size'
    ∧ ∀ key, key ≠ "max_val_batch_frames" → key ≠ "max_val_batch_size" →
             hparams' !! key = hparams !! key.
Proof.
  intros Hf Hs Hvf Hvs. cbn zeta. unfold init, getitem.
  rewrite Hf, Hs, Hvf. cbn [mbind result_bind].
  destruct (decide (val_frames = -1)) as [->|Hnf].
  - rewrite lookup_insert_ne, Hvs by done. cbn [mbind result_bind].
    destruct (decide (val_size = -1)) as [->|Hns]; eexists; (split; [reflexivity|]).
    + repeat split.
      * by rewrite !lookup_insert_ne.
      * by rewrite !lookup_insert_ne.
      * by rewrite lookup_insert_ne, lookup_insert_eq.
      * by rewrite lookup_insert_eq.
      * intros key ??. by rewrite !lookup_insert_ne.
    + repeat split.
      * by rewrite !lookup_insert_ne.
      * by rewrite !lookup_insert_ne.
      * by rewrite lookup_insert_eq.
      * by rewrite lookup_insert_ne.
      * intros key ??. by rewrite !lookup_insert_ne.
  - rewrite Hvs. cbn [mbind result_bind].
    destruct (decide (val_size = -1)) as [->|Hns]; eexists; (split; [reflexivity|]).
    + repeat split.
      * by rewrite !lookup_insert_ne.
      * by rewrite !lookup_insert_ne.
      * by rewrite lookup_insert_ne.
      * by rewrite lookup_insert_eq.
      * intros key ??. by rewrite !lookup_insert_ne.
    + by repeat split.
Qed.

Lemma validation_limits_inherit_witness :
  ∃ hparams',
    init Demo.configured
    = Ok ({| max_batch_frames := 80000; max_batch_size := 48;
             max_val_batch_frames := 80000; max_val_batch_size := 1 |}, hparams')
    ∧ hparams' !! "max_batch_frames" = Some 80000
    ∧ hparams' !! "max_batch_size" = Some 48
    ∧ hparams' !! "max_val_batch_frames" = Some 80000
    ∧ hparams' !! "max_val_batch_size" = Some 1
    ∧ ∀ key, key ≠ "max_val_batch_frames" → key ≠ "max_val_batch_size" →
             hparams' !! key = Demo.configured !! key.
Proof.
  apply (validation_limits_inherit Demo.configured 80000 48 (-1) 1); reflexivity.
Defined.
End base_task.

(** * Further properties of the code *)

(** ** [split_train_valid_set]: when it returns and what it returns *)
Section split_more.
Context (os : orders).
Implicit Types (names prefixes : list string).

Lemma size_le_1_iff (X : gset string) :
  (size X ≤ 1)%nat ↔ ∀ x y, x ∈ X → y ∈ X → x = y.
Proof.
  split.
  - intros Hsz x y Hx Hy.
    destruct (size X) as [|[|k]] eqn:Hk.
    + apply size_empty_iff in Hk. set_solver.
    + by apply (size_singleton_inv X x y).
    + lia.
  - intros Hall. destruct (decide (X = ∅)) as [->|Hne].
    + rewrite size_empty. lia.
    + apply set_choose_L in Hne as [x Hx].
      assert (X = {[x]}) as ->; [|by rewrite size_singleton].
      apply set_eq. intros y. rewrite elem_of_singleton. split; [|by intros ->].
      intros Hy. by apply Hall.
Qed.

Lemma not_ambiguous_iff m items (Q : gset string) :
  ¬ ambiguous m items Q ↔
  ∀ p n1 n2, p ∈ Q → n1 ∈ items → n2 ∈ items → m n1 p → m n2 p → n1 = n2.
Proof.
  unfold ambiguous, set_Exists. split.
  - intros Hno p n1 n2 Hp H1 H2 Hm1 Hm2.
    assert (size (matching m items p) ≤ 1)%nat as Hsz.
    { destruct (decide (size (matching m items p) ≤ 1)%nat); [done|].
      destruct Hno. exists p. split; [done|lia]. }
    eapply size_le_1_iff; [exact Hsz| |]; by apply elem_of_matching.
  - intros Hall (p & Hp & Hsz).
    assert (size (matching m items p) ≤ 1)%nat; [|lia].
    apply size_le_1_iff. intros x y [? ?]%elem_of_matching [? ?]%elem_of_matching.
    by apply (Hall p).
Qed.

Lemma elem_of_tier2_prefixes names prefixes p :
  p ∈ (list_to_set prefixes ∖ list_to_set names : gset string)
  ↔ reaches_tier2 names prefixes p.
Proof.
  unfold reaches_tier2. by rewrite elem_of_difference, !elem_of_list_to_set.
Qed.

Lemma elem_of_tier3_prefixes names prefixes p :
  let P1 : gset string := list_to_set prefixes ∖ list_to_set names in
  p ∈ P1 ∖ consumed by_suffix (list_to_set names) P1
  ↔ reaches_tier3 names prefixes p.
Proof.
  cbn zeta. unfold reaches_tier3.
  rewrite elem_of_difference, elem_of_consumed, elem_of_tier2_prefixes.
  split.
  - intros [H2 Hc]. split; [done|]. intros n Hn Hs. apply Hc. split; [|done].
    exists n. split; [by apply elem_of_list_to_set|].
    unfold by_suffix. by apply bool_decide_pack.
  - intros [H2 Hno]. split; [done|]. intros [(n & Hn & Hm) _].
    apply elem_of_list_to_set in Hn. apply (Hno n Hn).
    by apply bool_decide_unpack in Hm.
Qed.

Lemma elem_of_tier4_prefixes names prefixes p :
  let P1 : gset string := list_to_set prefixes ∖ list_to_set names in
  let P2 := P1 ∖ consumed by_suffix (list_to_set names) P1 in
  p ∈ P2 ∖ consumed by_start (list_to_set names) P2
  ↔ reaches_tier4 names prefixes p.
Proof.
  cbn zeta. unfold reaches_tier4.
  rewrite elem_of_difference, elem_of_consumed.
  rewrite (elem_of_tier3_prefixes names prefixes p).
  split.
  - intros [H3 Hc]. split; [done|]. intros n Hn Hs. apply Hc. split; [|done].
    exists n. split; [by apply elem_of_list_to_set|done].
  - intros [H3 Hno]. split; [done|]. intros [(n & Hn & Hm) _].
    apply elem_of_list_to_set in Hn. by apply (Hno n Hn).
Qed.

Lemma closed_form_is_Some names prefixes :
  is_Some (closed_form (list_to_set names) (list_to_set prefixes)) ↔
  (∀ p n1 n2, reaches_tier2 names prefixes p → n1 ∈ names → n2 ∈ names →
     colon_suffix n1 = p → colon_suffix n2 = p → n1 = n2)
  ∧ (∀ p n1 n2, reaches_tier3 names prefixes p → n1 ∈ names → n2 ∈ names →
       startswith n1 p → startswith n2 p → n1 = n2).
Proof.
  unfold closed_form.
  destruct (decide (ambiguous by_suffix _ _)) as [A2|A2].
  { split; [by intros [? ?]|]. intros [U2 _]. exfalso. revert A2.
    apply not_ambiguous_iff. intros p n1 n2 Hp H1 H2 Hm1 Hm2.
    apply (U2 p); [by apply elem_of_tier2_prefixes|by apply elem_of_list_to_set in H1
                  |by apply elem_of_list_to_set in H2
                  |by apply bool_decide_unpack in Hm1|by apply bool_decide_unpack in Hm2]. }
  destruct (decide (ambiguous by_start _ _)) as [A3|A3].
  { split; [by intros [? ?]|]. intros [_ U3]. exfalso. revert A3.
    apply not_ambiguous_iff. intros p n1 n2 Hp H1 H2 Hm1 Hm2.
    apply (U3 p); [by apply (elem_of_tier3_prefixes names prefixes p)
                  |by apply elem_of_list_to_set in H1
                  |by apply elem_of_list_to_set in H2|done|done]. }
  split; [|by eauto]. intros _. split.
  - intros p n1 n2 Hp H1 H2 Hs1 Hs2.
    eapply (proj1 (not_ambiguous_iff _ _ _) A2 p n1 n2);
      [by apply elem_of_tier2_prefixes|by apply elem_of_list_to_set
      |by apply elem_of_list_to_set|by apply bool_decide_pack|by apply bool_decide_pack].
  - intros p n1 n2 Hp H1 H2 Hs1 Hs2.
    eapply (proj1 (not_ambiguous_iff _ _ _) A3 p n1 n2);
      [by apply (elem_of_tier3_prefixes names prefixes p)|by apply elem_of_list_to_set
      |by apply elem_of_list_to_set|done|done].
Qed.

Lemma closed_form_elem names prefixes V x :
  closed_form (list_to_set names) (list_to_set prefixes) = Some V →
  x ∈ V ↔
  x ∈ names ∧
  (x ∈ prefixes
   ∨ reaches_tier2 names prefixes (colon_suffix x)
   ∨ (∃ p, reaches_tier3 names prefixes p ∧ startswith x p)
   ∨ (∃ p, reaches_tier4 names prefixes p ∧ startswith (colon_suffix x) p)).
Proof.
  unfold closed_form. repeat case_decide; [done..|]. intros [= <-].
  rewrite !elem_of_union, !elem_of_hits, elem_of_intersection, !elem_of_list_to_set.
  split.
  - intros [[[[? ?]|[(p & Hp & Hm) ?]]|[(p & Hp & Hm) ?]]|[(p & Hp & Hm) ?]];
      (split; [done|]).
    + by left.
    + right; left. apply bool_decide_unpack in Hm as ->.
      by apply elem_of_tier2_prefixes.
    + right; right; left. exists p. split; [|done].
      by apply (elem_of_tier3_prefixes names prefixes p).
    + right; right; right. exists p. split; [|done].
      by apply (elem_of_tier4_prefixes names prefixes p).
  - intros [Hx [?|[H2|[(p & Hp & Hm)|(p & Hp & Hm)]]]].
    + by left; left; left.
    + left; left; right. split; [|done]. exists (colon_suffix x).
      split; [by apply elem_of_tier2_prefixes|by apply bool_decide_pack].
    + left; right. split; [|done]. exists p.
      split; [by apply (elem_of_tier3_prefixes names prefixes p)|done].
    + right. split; [|done]. exists p.
      split; [by apply (elem_of_tier4_prefixes names prefixes p)|done].
Qed.
End split_more.

Lemma filter_all {A} (P : A → Prop) `{!∀ x, Decision (P x)} (l : list A) :
  Forall P l → filter P l = l.
Proof.
  induction 1 as [|x l Hx _ IH]; [done|].
  by rewrite filter_cons_True, IH.
Qed.

Section split_properties.
Context (os : orders).
Implicit Types (names prefixes train valid : list string).

(** X1. Whenever [split_train_valid_set] returns, every item name is in
    exactly one of the two sequences, and neither sequence repeats a name. *)
Theorem split_result_is_partition names prefixes train valid :
  split_train_valid_set os names prefixes = Ok (train, valid) →
  (∀ x, x ∈ names ↔ x ∈ train ∨ x ∈ valid)
  ∧ (∀ x, x ∈ train → x ∉ valid)
  ∧ NoDup train ∧ NoDup valid.
Proof. apply split_partition. Qed.

(** X2. The call returns exactly when no prefix that reaches the
    colon-suffix loop is the colon-suffix of two item names, and no prefix
    that reaches the startswith loop starts two item names. *)
Theorem split_returns_exactly_when names prefixes :
  returns (split_train_valid_set os names prefixes) ↔
  (∀ p n1 n2, reaches_tier2 names prefixes p → n1 ∈ names → n2 ∈ names →
     colon_suffix n1 = p → colon_suffix n2 = p → n1 = n2)
  ∧ (∀ p n1 n2, reaches_tier3 names prefixes p → n1 ∈ names → n2 ∈ names →
       startswith n1 p → startswith n2 p → n1 = n2).
Proof. rewrite split_returns_iff. apply closed_form_is_Some. Qed.

Lemma two_members (Y : gset string) :
  (2 ≤ size Y)%nat → ∃ x y, x ∈ Y ∧ y ∈ Y ∧ x ≠ y.
Proof.
  intros Hsz. pose proof (NoDup_elements Y) as Hnd. unfold size, set_size in Hsz.
  cbn in Hsz. destruct (elements Y) as [|x [|y l]] eqn:He; cbn in Hsz; [lia..|].
  exists x, y. rewrite <-!elem_of_elements, He.
  split; [by left|]. split; [by right; left|].
  apply NoDup_cons in Hnd as [Hx _]. intros ->. apply Hx. by left.
Qed.

Lemma outer_loop_raise_key (o : set_order) m items ps V Pr e :
  NoDup ps → (∀ p, p ∈ ps → p ∈ Pr) →
  for_each ps (λ p, for_each (o items) (consume m p)) (V, Pr) = Raise e →
  ∃ k, e = KeyError k ∧ k ∈ ps ∧ (2 ≤ size (matching m items k))%nat.
Proof.
  revert V Pr. induction ps as [|p ps IH]; intros V Pr Hnd Hin; [done|].
  apply NoDup_cons in Hnd as [Hp Hnd]. cbn [for_each].
  destruct (matching_cases m items p) as [Hnone|[[n Hone]|Hmany]].
  - rewrite inner_loop_none by done. cbn [mbind result_bind]. intros Hr.
    destruct (IH V Pr) as (k & -> & Hk & Hsz); [done|set_solver|done|].
    exists k. repeat split; [by right|done].
  - rewrite (inner_loop_one o m items p n) by set_solver.
    cbn [mbind result_bind]. intros Hr.
    destruct (IH (V ∪ {[n]}) (Pr ∖ {[p]})) as (k & -> & Hk & Hsz); [done| |done|].
    { intros q Hq. apply elem_of_difference. split; [set_solver|].
      rewrite elem_of_singleton. by intros ->. }
    exists k. repeat split; [by right|done].
  - rewrite inner_loop_many by done. cbn [mbind result_bind]. intros [= <-].
    exists p. repeat split; [by left|done].
Qed.

Lemma consume_loop_raise_key (op oi : set_order) m items V Pr e :
  for_each (op Pr) (λ p, for_each (oi items) (consume m p)) (V, Pr) = Raise e →
  ∃ k n1 n2, e = KeyError k ∧ k ∈ Pr ∧ n1 ∈ items ∧ n2 ∈ items
             ∧ m n1 k ∧ m n2 k ∧ n1 ≠ n2.
Proof.
  intros Hr. apply outer_loop_raise_key in Hr as (k & -> & Hk & Hsz).
  - apply two_members in Hsz
      as (n1 & n2 & [? ?]%elem_of_matching & [? ?]%elem_of_matching & Hne).
    exists k, n1, n2. by rewrite <-(elem_of_iter op).
  - apply NoDup_iter.
  - intros p. by rewrite elem_of_iter.
Qed.

(** X3. The only way the call fails is a [KeyError], and its key is an
    ambiguous test prefix: one that reaches the colon-suffix loop and is the
    colon-suffix of two item names, or one that reaches the startswith loop
    and starts two item names. *)
Theorem split_fails_only_on_an_ambiguous_prefix names prefixes (e : exn) :
  split_train_valid_set os names prefixes = Raise e →
  ∃ k n1 n2,
    e = KeyError k ∧ n1 ∈ names ∧ n2 ∈ names ∧ n1 ≠ n2
    ∧ (reaches_tier2 names prefixes k ∧ colon_suffix n1 = k ∧ colon_suffix n2 = k
       ∨ reaches_tier3 names prefixes k ∧ startswith n1 k ∧ startswith n2 k).
Proof.
  unfold split_train_valid_set, valid_set.
  rewrite tier1_closed. cbn [mbind result_bind].
  destruct (tier2 os _ _) as [[V2 P2]|e2] eqn:H2; cbn [mbind result_bind].
  - assert (¬ ambiguous by_suffix (list_to_set names)
                (list_to_set prefixes ∖ list_to_set names)) as Hamb.
    { intros Hamb. by destruct (tier2_raise os _ (∅ ∪ list_to_set prefixes
        ∩ list_to_set names) _ Hamb) as (k & _ & Hk); rewrite Hk in H2. }
    rewrite (tier2_ok os _ _ _ Hamb) in H2. injection H2 as <- <-.
    destruct (tier3 os _ _) as [[V3 P3]|e3] eqn:H3; cbn [mbind result_bind].
    + rewrite tier4_closed. by cbn.
    + intros [= <-]. unfold tier3 in H3. cbn [snd] in H3.
      rewrite (for_each_ext _ _ (λ p, for_each (os ItemNames (list_to_set names))
                 (consume by_start p))) in H3
        by (intros p t; apply for_each_ext, tier3_body_consume).
      apply consume_loop_raise_key
        in H3 as (k & n1 & n2 & -> & Hk & H1 & H2 & Hm1 & Hm2 & Hne).
      exists k, n1, n2. rewrite !elem_of_list_to_set in H1, H2.
      repeat split; [done..|]. right.
      split; [by apply (elem_of_tier3_prefixes names prefixes k)|done].
  - intros [= <-]. unfold tier2 in H2. cbn [snd] in H2.
    rewrite (for_each_ext _ _ (λ p, for_each (os ItemNames (list_to_set names))
               (consume by_suffix p))) in H2
      by (intros p t; apply for_each_ext, tier2_body_consume).
    apply consume_loop_raise_key
      in H2 as (k & n1 & n2 & -> & Hk & H1 & H2 & Hm1 & Hm2 & Hne).
    exists k, n1, n2. rewrite !elem_of_list_to_set in H1, H2.
    apply bool_decide_unpack in Hm1, Hm2.
    repeat split; [done..|]. left.
    split; [by apply elem_of_tier2_prefixes|done].
Qed.

(** X4. The valid sequence is sorted and does not depend on how the sets
    enumerate: a second run under other enumeration orders returns the same
    valid sequence, and a train sequence with the same names. *)
Theorem valid_sequence_is_sorted_and_order_free
    (os' : orders) names prefixes train valid :
  split_train_valid_set os names prefixes = Ok (train, valid) →
  ∃ train',
    split_train_valid_set os' names prefixes = Ok (train', valid)
    ∧ train ≡ₚ train' ∧ Sorted String.le valid.
Proof. apply split_valid_order_independent. Qed.

(** X5. Test prefixes that match no item under any of the four rules are
    dropped without an error: the valid sequence is empty and train is the
    whole item set in its enumeration order.  This covers an empty prefix
    list and an empty item list. *)
Theorem unmatched_prefixes_are_dropped names prefixes :
  (∀ p n, p ∈ prefixes → n ∈ names →
     n ≠ p ∧ colon_suffix n ≠ p ∧ ¬ startswith n p
     ∧ ¬ startswith (colon_suffix n) p) →
  split_train_valid_set os names prefixes
  = Ok (iter (os ItemNames) (list_to_set names), []).
Proof.
  intros Hno.
  pose proof (split_closed_form os names prefixes) as H.
  pose proof (closed_form_is_Some names prefixes) as Hsome.
  destruct (closed_form _ _) as [V|] eqn:Hcf.
  - assert (V = ∅) as ->.
    { apply set_eq. intros x. rewrite (closed_form_elem names prefixes V x Hcf).
      rewrite elem_of_empty. split; [|done].
      intros [Hx [Hp|[[Hp _]|[(p & [[Hp _] _] & Hm)|(p & [[[Hp _] _] _] & Hm)]]]].
      - by destruct (Hno x x Hp Hx) as (? & _).
      - by destruct (Hno _ x Hp Hx) as (_ & ? & _).
      - by destruct (Hno p x Hp Hx) as (_ & _ & ? & _).
      - by destruct (Hno p x Hp Hx) as (_ & _ & _ & ?). }
    rewrite H, elements_empty. f_equal. f_equal.
    apply filter_all, Forall_forall. intros x _. apply not_elem_of_empty.
  - exfalso. assert (is_Some (None : option (gset string))) as [? [=]].
    apply Hsome. split.
    + intros p n1 n2 [Hp _] H1 _ Hs _. by destruct (Hno p n1 Hp H1) as (_ & ? & _).
    + intros p n1 n2 [[Hp _] _] H1 _ Hs _. by destruct (Hno p n1 Hp H1) as (_ & _ & ? & _).
Qed.

(** X6. Whenever the call returns, an item name is in the valid sequence
    exactly when it is a test prefix itself, or its colon-suffix is a
    prefix that is no item name, or it starts with a prefix that reaches the
    startswith loop, or its colon-suffix starts with a prefix that reaches
    the last loop. *)
Theorem valid_membership names prefixes train valid :
  split_train_valid_set os names prefixes = Ok (train, valid) →
  ∀ x, x ∈ valid ↔
    x ∈ names ∧
    (x ∈ prefixes
     ∨ reaches_tier2 names prefixes (colon_suffix x)
     ∨ (∃ p, reaches_tier3 names prefixes p ∧ startswith x p)
     ∨ (∃ p, reaches_tier4 names prefixes p ∧ startswith (colon_suffix x) p)).
Proof.
  intros Hsplit x.
  pose proof (split_closed_form os names prefixes) as H.
  destruct (closed_form _ _) as [V|] eqn:Hcf; [|by destruct H as (k & _ & Hr); congruence].
  rewrite H in Hsplit. injection Hsplit as <- <-.
  rewrite <-(closed_form_elem names prefixes V x Hcf).
  unfold sorted. by rewrite merge_sort_Permutation, elem_of_elements.
Qed.
End split_properties.

Lemma split_result_is_partition_witness :
  (∀ x, x ∈ ["s1:take1"; "s2:take2"; "s2:other"]
        ↔ x ∈ ["s2:other"] ∨ x ∈ ["s1:take1"; "s2:take2"])
  ∧ (∀ x, x ∈ ["s2:other"] → x ∉ ["s1:take1"; "s2:take2"])
  ∧ NoDup ["s2:other"] ∧ NoDup ["s1:take1"; "s2:take2"].
Proof.
  apply (split_result_is_partition (uniform ascending)
           ["s1:take1"; "s2:take2"; "s2:other"] ["take"]).
  vm_compute. reflexivity.
Defined.

Lemma valid_sequence_is_sorted_and_order_free_witness :
  ∃ train',
    split_train_valid_set (uniform descending)
      ["s1:take1"; "s2:take2"; "s2:other"] ["take"]
    = Ok (train', ["s1:take1"; "s2:take2"])
    ∧ ["s2:other"] ≡ₚ train' ∧ Sorted String.le ["s1:take1"; "s2:take2"].
Proof.
  apply (valid_sequence_is_sorted_and_order_free (uniform ascending)
           (uniform descending) ["s1:take1"; "s2:take2"; "s2:other"] ["take"]).
  vm_compute. reflexivity.
Defined.

Lemma unmatched_prefixes_are_dropped_witness :
  split_train_valid_set (uniform ascending) ["a"; "spk:b"] ["zz"; "c"]
  = Ok (["a"; "spk:b"], []).
Proof.
  apply (unmatched_prefixes_are_dropped (uniform ascending) ["a"; "spk:b"] ["zz"; "c"]).
  intros p n Hp Hn. revert p Hp. apply Forall_forall.
  revert n Hn. apply Forall_forall. compute_done.
Defined.

Lemma valid_membership_witness :
  let names := ["s1:take1"; "s2:take2"; "s2:other"] in
  let held_out x :=
    x ∈ names ∧
    (x ∈ ["take"]
     ∨ reaches_tier2 names ["take"] (colon_suffix x)
     ∨ (∃ p, reaches_tier3 names ["take"] p ∧ startswith x p)
     ∨ (∃ p, reaches_tier4 names ["take"] p ∧ startswith (colon_suffix x) p)) in
  ("s2:take2" ∈ ["s1:take1"; "s2:take2"] ↔ held_out "s2:take2")
  ∧ ("s2:other" ∈ ["s1:take1"; "s2:take2"] ↔ held_out "s2:other").
Proof.
  intros names held_out.
  split;
    apply (valid_membership (uniform ascending) names ["take"] ["s2:other"]);
    vm_compute; reflexivity.
Defined.

(** ** [meta_data_iterator] and [process_dataset]: errors and edge cases *)
Section process_dataset_properties.
Context {T : Type} `{Duration T} {meta_data payload kwargs_t aug_conf : Type}.
Context (pool :
  (string → meta_data → binarization_args_t → result (option (Item.t T payload))) →
  list (arg (meta_data := meta_data)) → Z → stream (T := T) (payload := payload)).
Implicit Types (self : binarizer T meta_data payload kwargs_t aug_conf).
Implicit Types (st : closure T payload) (r : Item.t T payload).
Implicit Types (aug_map : gmap string (list (task T payload kwargs_t))).
Implicit Types (metas : list (string * meta_data)).
Implicit Types (results : list (option (Item.t T payload))).

(** The argument list built at lines 172-173. *)
Local Abbreviation args_of self metas :=
  ((λ nm : string * meta_data, (nm.1, nm.2, binarization_args self)) <$> metas).

(** [results] are what [process_item] returns on [metas], in order. *)
Local Abbreviation returned self metas results :=
  (Forall2 (λ (nm : string * meta_data) res,
      process_item self nm.1 nm.2 (binarization_args self) = Ok res) metas results).

Lemma lookup_all_spec (items : gmap string meta_data) (names : list string) :
  match lookup_all items names with
  | Ok metas => metas.*1 = names ∧ Forall (λ nm, items !! nm.1 = Some nm.2) metas
  | Raise e =>
      ∃ before n after,
        names = before ++ n :: after ∧ e = KeyError n ∧ items !! n = None
        ∧ Forall (λ x, is_Some (items !! x)) before
  end.
Proof.
  induction names as [|n names IH]; cbn; [done|].
  destruct (items !! n) as [md|] eqn:Hn.
  - destruct (lookup_all items names) as [metas|e]; cbn.
    + destruct IH as [-> Hall]. split; [done|]. by constructor.
    + destruct IH as (before & k & after & -> & -> & Hk & Hb).
      exists (n :: before), k, after. repeat split; [done|]. by constructor.
  - exists [], n, names. by repeat split.
Qed.

(** X7. [meta_data_iterator] yields the names of the split in order, each
    with its entry of [self.items] (any prefix other than ['train'] selects
    the valid names); it fails exactly at the first name missing from
    [self.items], with the [KeyError] of that name. *)
Theorem meta_data_iterator_yields_or_key_error self (prefix : string) :
  let names := if decide (prefix = "train") then train_item_names self
               else valid_item_names self in
  match meta_data_iterator self prefix with
  | Ok metas =>
      metas.*1 = names ∧ Forall (λ nm, items self !! nm.1 = Some nm.2) metas
  | Raise e =>
      ∃ before n after,
        names = before ++ n :: after ∧ e = KeyError n ∧ items self !! n = None
        ∧ Forall (λ x, is_Some (items self !! x)) before
  end.
Proof. apply lookup_all_spec. Qed.

Lemma sequential_loop_returned self aug_map metas results st :
  returned self metas results →
  sequential_loop self aug_map (args_of self metas) st
  = (foldl (postprocess aug_map) st results, Ok ()).
Proof.
  intros Hres. revert st.
  induction Hres as [|[n md] res metas results Hr _ IH]; intros st; [done|].
  cbn in *. rewrite Hr. apply IH.
Qed.

(** X8. If [process_item] returns on every item of the split and the worker
    pool hands these results back in submission order, the run does not
    depend on the number of workers: records, finalization, saved lengths
    and outcome are those of the single-CPU run. *)
Theorem workers_do_not_change_the_run self (prefix : string) (workers : Z)
    (augment : bool) metas results :
  meta_data_iterator self prefix = Ok metas →
  returned self metas results →
  pool (process_item self) (args_of self metas) workers = (results, Ok ()) →
  process_dataset pool self prefix workers augment
  = process_dataset pool self prefix 0 augment.
Proof.
  intros Hmetas Hres Hpool. unfold process_dataset. rewrite Hmetas.
  destruct (if augment then _ else _) as [aug_map|e]; [|done].
  rewrite (decide_False (P := 0 < 0)) by lia.
  rewrite (sequential_loop_returned self aug_map metas results fresh Hres).
  destruct (decide (0 < workers)); [|done].
  unfold parallel_loop. by rewrite Hpool.
Qed.

(** X9. When [process_item] raises on an item of a single-CPU run, the
    exception ends the run: the records of the items before it (and their
    augmented copies) were already handed to the builder, but the builder is
    not finalized and no lengths array is saved. *)
Theorem exception_cuts_the_run_short self (prefix : string) (workers : Z)
    (augment : bool) aug_map metas_before (item_name : string) (meta : meta_data)
    metas_after results (e : exn) :
  workers ≤ 0 →
  meta_data_iterator self prefix = Ok (metas_before ++ (item_name, meta) :: metas_after) →
  (if augment
   then arrange_data_augmentation self (metas_before ++ (item_name, meta) :: metas_after)
   else Ok ∅) = Ok aug_map →
  returned self metas_before results →
  process_item self item_name meta (binarization_args self) = Raise e →
  process_dataset pool self prefix workers augment
  = {| add_item_calls := builder (foldl (postprocess aug_map) fresh results);
       finalized := false; lengths_file := None; outcome := Raise e |}.
Proof.
  intros Hw Hmetas Haug Hres Hraise. unfold process_dataset.
  rewrite Hmetas, Haug, decide_False by lia.
  rewrite fmap_app.
  rewrite (sequential_loop_app self aug_map (args_of self metas_before)
             (args_of self ((item_name, meta) :: metas_after))).
  rewrite (sequential_loop_returned self aug_map metas_before results fresh Hres).
  cbn. by rewrite Hraise.
Qed.

Lemma foldl_postprocess_all_none aug_map results st :
  Forall (λ res, res = None) results → foldl (postprocess aug_map) st results = st.
Proof.
  induction 1 as [|res results -> _ IH]; [done|]. cbn. apply IH.
Qed.

(** X10. With augmentation applied, a single-CPU run in which no item yields
    a record (an empty split, or [None] for every item) finalizes the empty
    builder and saves an empty lengths array, and then fails in the final
    report with [ZeroDivisionError], the raw duration being zero. *)
Theorem augmented_run_without_records_divides_by_zero self (prefix : string)
    (workers : Z) aug_map metas :
  d_is_zero (d_zero : T) = true →
  workers ≤ 0 →
  meta_data_iterator self prefix = Ok metas →
  arrange_data_augmentation self metas = Ok aug_map →
  Forall (λ nm, process_item self nm.1 nm.2 (binarization_args self) = Ok None) metas →
  process_dataset pool self prefix workers true
  = {| add_item_calls := []; finalized := true; lengths_file := Some [];
       outcome := Raise ZeroDivisionError |}.
Proof.
  intros Hzero Hw Hmetas Haug Hnone. unfold process_dataset.
  rewrite Hmetas, Haug, decide_False by lia.
  rewrite (sequential_loop_returned self aug_map metas (replicate (length metas) None)).
  2:{ clear -Hnone. induction Hnone; cbn; by constructor. }
  rewrite foldl_postprocess_all_none
    by (apply Forall_forall; by intros x [-> _]%elem_of_replicate).
  cbn. unfold report. cbn. by rewrite Hzero.
Qed.

(** X11. How a run can end.  A run that returns has finalized the builder
    and saved the lengths array.  A run that raises after saving it can only
    have raised the [ZeroDivisionError] of the augmented report; any other
    exception leaves the builder unfinalized and no array saved. *)
Theorem how_a_run_ends self (prefix : string) (workers : Z) (augment : bool) :
  let r := process_dataset pool self prefix workers augment in
  match outcome r, lengths_file r with
  | Ok _, Some _ => finalized r = true
  | Ok _, None => False
  | Raise e, Some _ => finalized r = true ∧ augment = true ∧ e = ZeroDivisionError
  | Raise _, None => finalized r = false
  end.
Proof.
  cbn zeta. unfold process_dataset.
  destruct (meta_data_iterator self prefix) as [metas|e]; [|done].
  destruct (if augment then _ else _) as [aug_map|e]; [|done].
  destruct (if decide (0 < workers) then _ else _) as [st [[]|e]]; [|done].
  cbn. unfold report. destruct augment; [|done].
  by destruct (d_is_zero _).
Qed.

Lemma postprocess_no_tasks_counters aug_map st res :
  (∀ r, res = Some r → default [] (aug_map !! Item.name r) = []) →
  total_sec st = total_raw_sec st →
  total_sec (postprocess aug_map st res) = total_raw_sec (postprocess aug_map st res).
Proof.
  intros Hno Heq. destruct res as [r|]; [|done]. cbn.
  rewrite (Hno r eq_refl). cbn. by rewrite Heq.
Qed.

(** X12. As long as no processed record has a planned task (in particular
    without an augmentation map), the duration after augmentation stays equal
    to the raw duration throughout the loop. *)
Theorem durations_agree_without_tasks aug_map results st :
  Forall (λ res, ∀ r, res = Some r → default [] (aug_map !! Item.name r) = [])
    results →
  total_sec st = total_raw_sec st →
  total_sec (foldl (postprocess aug_map) st results)
  = total_raw_sec (foldl (postprocess aug_map) st results).
Proof.
  intros Hno. revert st. induction Hno as [|res results Hres _ IH]; intros st Heq.
  - done.
  - cbn. apply IH. by apply postprocess_no_tasks_counters.
Qed.
Lemma postprocess_appends aug_map st res :
  builder (postprocess aug_map st res)
  = builder st ++ builder (postprocess aug_map fresh res).
Proof.
  destruct res as [r|]; [|by cbn; rewrite app_nil_r].
  destruct (postprocess_fan_out aug_map st r) as (-> & _).
  by destruct (postprocess_fan_out aug_map fresh r) as (-> & _).
Qed.

Lemma foldl_postprocess_appends aug_map results st :
  builder (foldl (postprocess aug_map) st results)
  = builder st ++ builder (foldl (postprocess aug_map) fresh results).
Proof.
  revert st. induction results as [|res results IH]; intros st; cbn.
  - by rewrite app_nil_r.
  - rewrite IH, (IH (postprocess aug_map fresh res)), (postprocess_appends _ st).
    by rewrite app_assoc.
Qed.

Lemma foldl_postprocess_no_plan results st :
  builder (foldl (postprocess (kwargs_t := kwargs_t) ∅) st results)
  = builder st ++ omap id results.
Proof.
  revert st. induction results as [|[r|] results IH]; intros st; cbn.
  - by rewrite app_nil_r.
  - rewrite IH. cbn. rewrite lookup_empty. cbn. by rewrite <-app_assoc.
  - apply IH.
Qed.

(** C7. In a run of [process_dataset] (on a single CPU, or with a worker
    pool that hands the results back in submission order), an item for which
    [process_item] returns the record [r], and under whose ['name'] the
    augmentation map holds [k] tasks, contributes exactly [k + 1] records
    to the builder and [k + 1] entries to the saved lengths: [r] itself,
    then one record derived from [r] per task.  They stand between what the
    items before it and the items after it contribute. *)
Theorem item_contributes_base_and_derived_records self (prefix : string)
    (workers : Z) (augment : bool) aug_map metas_before (item_name : string)
    (meta : meta_data) metas_after results_before r results_after :
  meta_data_iterator self prefix
  = Ok (metas_before ++ (item_name, meta) :: metas_after) →
  (if augment
   then arrange_data_augmentation self (metas_before ++ (item_name, meta) :: metas_after)
   else Ok ∅) = Ok aug_map →
  returned self metas_before results_before →
  process_item self item_name meta (binarization_args self) = Ok (Some r) →
  returned self metas_after results_after →
  (0 < workers →
   pool (process_item self)
     (args_of self (metas_before ++ (item_name, meta) :: metas_after)) workers
   = (results_before ++ Some r :: results_after, Ok ())) →
  let tasks := default [] (aug_map !! Item.name r) in
  let derived := (λ t, func t r (kwargs t)) <$> tasks in
  let before := builder (foldl (postprocess aug_map) fresh results_before) in
  let after := builder (foldl (postprocess aug_map) fresh results_after) in
  let run := process_dataset pool self prefix workers augment in
  add_item_calls run = before ++ (r :: derived) ++ after
  ∧ lengths_file run
    = Some ((Item.length <$> before)
            ++ (Item.length r :: (Item.length <$> derived))
            ++ (Item.length <$> after))
  ∧ length (r :: derived) = S (length tasks).
Proof.
  intros Hmetas Haug Hb Hr Ha Hpool. cbn zeta.
  assert (returned self (metas_before ++ (item_name, meta) :: metas_after)
            (results_before ++ Some r :: results_after)) as Hall.
  { apply Forall2_app; [done|]. by constructor. }
  assert (builder (foldl (postprocess aug_map) fresh
                     (results_before ++ Some r :: results_after))
          = builder (foldl (postprocess aug_map) fresh results_before)
            ++ (r :: ((λ t, func t r (kwargs t)) <$> default [] (aug_map !! Item.name r)))
            ++ builder (foldl (postprocess aug_map) fresh results_after)) as Hbuilder.
  { rewrite foldl_app. cbn [foldl]. rewrite foldl_postprocess_appends.
    destruct (postprocess_fan_out aug_map
                (foldl (postprocess aug_map) fresh results_before) r) as (-> & _).
    by rewrite <-app_assoc. }
  pose proof (foldl_postprocess_in_step aug_map
                (results_before ++ Some r :: results_after) fresh eq_refl) as Hstep.
  unfold in_step in Hstep.
  unfold process_dataset. rewrite Hmetas, Haug.
  assert ((if decide (0 < workers)
           then parallel_loop aug_map
                  (pool (process_item self)
                     (args_of self (metas_before ++ (item_name, meta) :: metas_after))
                     workers) fresh
           else sequential_loop self aug_map
                  (args_of self (metas_before ++ (item_name, meta) :: metas_after))
                  fresh)
          = (foldl (postprocess aug_map) fresh
               (results_before ++ Some r :: results_after), Ok ())) as ->.
  { destruct (decide (0 < workers)) as [Hw|Hw].
    - unfold parallel_loop. by rewrite (Hpool Hw).
    - by apply sequential_loop_returned. }
  cbn [add_item_calls lengths_file]. rewrite Hstep, Hbuilder.
  repeat split.
  - by rewrite !fmap_app.
  - cbn. by rewrite length_fmap.
Qed.

(** C10. Once the speaker map and the coverage check have passed, [process]
    runs the valid split and then the train split.  The valid run is
    [process_dataset('valid')] with no worker and no augmentation: the
    builder receives the records [process_item] returns on the valid items,
    in order, and nothing else, whatever the worker pool, the worker count
    and the augmentation plan are.  The train run is the one that gets the
    worker count of [binarization_args] (its results come from the pool
    exactly when that count is positive) and the augmentation plan, which is
    used exactly when [augmentation_args] is not empty. *)
Theorem process_runs_valid_plain_and_train_as_configured self
    (spk_map : gmap string nat) valid_metas valid_results train_metas
    train_results (plan : gmap string (list (task T payload kwargs_t))) :
  build_spk_map self = Ok spk_map →
  check_coverage self = Ok () →
  meta_data_iterator self "valid" = Ok valid_metas →
  returned self valid_metas valid_results →
  meta_data_iterator self "train" = Ok train_metas →
  (num_workers (binarization_args self) ≤ 0 →
   returned self train_metas train_results) →
  (augmentation_args self ≠ ∅ →
   arrange_data_augmentation self train_metas = Ok plan) →
  let p := process pool self in
  let workers := num_workers (binarization_args self) in
  let handed_over :=
    if decide (0 < workers)
    then (pool (process_item self) (args_of self train_metas) workers).1
    else train_results in
  let aug_map := if decide (augmentation_args self = ∅) then ∅ else plan in
  ∃ v t,
    valid_run p = Some v ∧ train_run p = Some t
    ∧ v = process_dataset pool self "valid" 0 false
    ∧ t = process_dataset pool self "train" workers
            (bool_decide (augmentation_args self ≠ ∅))
    ∧ add_item_calls v = omap id valid_results
    ∧ lengths_file v = Some (Item.length <$> omap id valid_results)
    ∧ add_item_calls t = builder (foldl (postprocess aug_map) fresh handed_over)
    ∧ process_outcome p = outcome t.
Proof.
  intros Hspk Hcov Hvmetas Hvres Htmetas Htres Hplan. cbn zeta.
  assert (process_dataset pool self "valid" 0 false
          = {| add_item_calls := omap id valid_results;
               finalized := true;
               lengths_file := Some (Item.length <$> omap id valid_results);
               outcome := Ok () |}) as Hv.
  { unfold process_dataset. rewrite Hvmetas, decide_False by lia.
    rewrite (sequential_loop_returned self ∅ valid_metas valid_results fresh Hvres).
    pose proof (foldl_postprocess_in_step (kwargs_t := kwargs_t) ∅ valid_results
                  fresh eq_refl) as Hstep.
    unfold in_step in Hstep. cbn. rewrite Hstep.
    by rewrite foldl_postprocess_no_plan. }
  assert (bool_decide (0 < size (augmentation_args self))%nat
          = bool_decide (augmentation_args self ≠ ∅)) as Haug.
  { apply bool_decide_ext. rewrite <-map_size_non_empty_iff. lia. }
  unfold process. rewrite Hspk, Hcov, Hv. cbn [outcome]. rewrite Haug.
  eexists _, _. cbn [valid_run train_run process_outcome].
  split; [done|]. split; [done|]. split; [done|]. split; [done|].
  split; [done|]. split; [done|]. split; [|done].
  unfold process_dataset. rewrite Htmetas.
  assert ((if bool_decide (augmentation_args self ≠ ∅)
           then arrange_data_augmentation self train_metas else Ok ∅)
          = Ok (if decide (augmentation_args self = ∅) then ∅ else plan)) as ->.
  { destruct (decide (augmentation_args self = ∅)) as [He|Hne].
    - by rewrite bool_decide_false by (by intros []).
    - by rewrite bool_decide_true, Hplan. }
  destruct (decide (0 < num_workers (binarization_args self))) as [Hw|Hw].
  - unfold parallel_loop. by destruct (pool _ _ _) as [results [[]|e]].
  - rewrite (sequential_loop_returned self _ train_metas train_results fresh)
      by (apply Htres; lia).
    done.
Qed.
End process_dataset_properties.

Lemma workers_do_not_change_the_run_witness :
  let self := Demo.binarizer_of ["ab"; "bad"; "c"] []
                {[ "ab" := [Demo.stretch] ]} {[ "pitch_shift" := () ]} in
  process_dataset Demo.ordered_pool self "train" 4 true
  = process_dataset Demo.ordered_pool self "train" 0 true.
Proof.
  intros self.
  apply (workers_do_not_change_the_run Demo.ordered_pool self "train" 4 true
           [("ab", ()); ("bad", ()); ("c", ())]
           [Some (Demo.item "ab"); None; Some (Demo.item "c")]).
  - reflexivity.
  - repeat constructor.
  - reflexivity.
Defined.

Lemma exception_cuts_the_run_short_witness :
  let self := Demo.fragile_binarizer_of ["ab"; "broken1"; "c"] []
                {[ "ab" := [Demo.stretch] ]} {[ "pitch_shift" := () ]} in
  process_dataset Demo.ordered_pool self "train" 0 true
  = {| add_item_calls :=
         builder (foldl (postprocess {[ "ab" := [Demo.stretch] ]}) fresh
                    [Some (Demo.item "ab")]);
       finalized := false; lengths_file := None;
       outcome := Raise (Exception "cannot read the audio") |}.
Proof.
  intros self.
  apply (exception_cuts_the_run_short Demo.ordered_pool self "train" 0 true
           {[ "ab" := [Demo.stretch] ]} [("ab", ())] "broken1" () [("c", ())]
           [Some (Demo.item "ab")] (Exception "cannot read the audio")).
  - lia.
  - reflexivity.
  - reflexivity.
  - repeat constructor.
  - reflexivity.
Defined.

Lemma augmented_run_without_records_divides_by_zero_witness :
  process_dataset Demo.ordered_pool
    (Demo.binarizer_of ["bad1"; "bad2"] [] ∅ {[ "pitch_shift" := () ]}) "train" 0 true
  = {| add_item_calls := []; finalized := true; lengths_file := Some [];
       outcome := Raise ZeroDivisionError |}.
Proof.
  apply (augmented_run_without_records_divides_by_zero Demo.ordered_pool
           (Demo.binarizer_of ["bad1"; "bad2"] [] ∅ {[ "pitch_shift" := () ]})
           "train" 0 ∅ [("bad1", ()); ("bad2", ())]).
  - reflexivity.
  - lia.
  - reflexivity.
  - reflexivity.
  - repeat constructor.
Defined.

Lemma durations_agree_without_tasks_witness :
  let no_plan : gmap string (list (task Z () ())) := ∅ in
  let st : closure Z () := fresh in
  let results := [Some (Demo.item "a"); None; Some (Demo.item "bb")] in
  total_sec (foldl (postprocess no_plan) st results)
  = total_raw_sec (foldl (postprocess no_plan) st results).
Proof.
  intros no_plan st results.
  apply (durations_agree_without_tasks no_plan results st).
  - repeat constructor.
  - reflexivity.
Defined.

Lemma item_contributes_base_and_derived_records_witness :
  let self := Demo.binarizer_of ["c"; "ab"; "bad"] []
                {[ "ab" := [Demo.stretch; Demo.stretch] ]} {[ "pitch_shift" := () ]} in
  let aug_map : gmap string (list (task Z () ())) :=
    {[ "ab" := [Demo.stretch; Demo.stretch] ]} in
  let r := Demo.item "ab" in
  let tasks := default [] (aug_map !! Item.name r) in
  let derived := (λ t, func t r (kwargs t)) <$> tasks in
  let before := builder (foldl (postprocess aug_map) fresh [Some (Demo.item "c")]) in
  let after := builder (foldl (postprocess aug_map) fresh [None]) in
  let run := process_dataset Demo.ordered_pool self "train" 0 true in
  add_item_calls run = before ++ (r :: derived) ++ after
  ∧ lengths_file run
    = Some ((Item.length <$> before)
            ++ (Item.length r :: (Item.length <$> derived))
            ++ (Item.length <$> after))
  ∧ length (r :: derived) = S (length tasks).
Proof.
  intros self aug_map r.
  apply (item_contributes_base_and_derived_records Demo.ordered_pool self "train" 0
           true aug_map [("c", ())] "ab" () [("bad", ())]
           [Some (Demo.item "c")] r [None]).
  - reflexivity.
  - reflexivity.
  - repeat constructor.
  - reflexivity.
  - repeat constructor.
  - lia.
Defined.

Lemma process_runs_valid_plain_and_train_as_configured_witness :
  let self := Demo.studio in
  let p := process Demo.ordered_pool self in
  let doubled := Item.Make "ab" 4 2000 () in
  ∃ v t,
    valid_run p = Some v ∧ train_run p = Some t
    ∧ v = process_dataset Demo.ordered_pool self "valid" 0 false
    ∧ t = process_dataset Demo.ordered_pool self "train" 2 true
    ∧ add_item_calls v = [Demo.item "d"]
    ∧ lengths_file v = Some [1]
    ∧ add_item_calls t = [Demo.item "ab"; doubled; doubled; Demo.item "c"]
    ∧ process_outcome p = outcome t.
Proof.
  intros self p doubled.
  destruct (process_runs_valid_plain_and_train_as_configured Demo.ordered_pool self
              {[ "opencpop" := 0%nat ]} [("d", ())] [Some (Demo.item "d")]
              [("ab", ()); ("bad", ()); ("c", ())]
              [Some (Demo.item "ab"); None; Some (Demo.item "c")]
              {[ "ab" := [Demo.stretch; Demo.stretch]; "d" := [Demo.stretch] ]})
    as (v & t & Hv & Ht & Hv' & Ht' & Hrec & Hlen & Htrain & Hout).
  - vm_compute. reflexivity.
  - reflexivity.
  - reflexivity.
  - repeat constructor.
  - reflexivity.
  - intros _. repeat constructor.
  - intros _. reflexivity.
  - exists v, t.
    split; [exact Hv|]. split; [exact Ht|]. split; [exact Hv'|].
    split; [rewrite Ht'; vm_compute; reflexivity|].
    split; [rewrite Hrec; reflexivity|].
    split; [rewrite Hlen; reflexivity|].
    split; [rewrite Htrain; vm_compute; reflexivity|].
    exact Hout.
Defined.

(** ** [build_spk_map], [process] and [__init__] *)

Lemma size_list_to_set_le (l : list string) :
  (size (list_to_set l : gset string) ≤ length l)%nat.
Proof.
  induction l as [|x l IH]; cbn.
  - by rewrite size_empty.
  - destruct (decide (x ∈ l)) as [Hin|Hout].
    + assert ({[x]} ∪ list_to_set l = (list_to_set l : gset string)) as ->; [|lia].
      assert (x ∈ (list_to_set l : gset string)) by by apply elem_of_list_to_set.
      set_solver.
    + rewrite size_union, size_singleton; [lia|].
      apply disjoint_singleton_l. by rewrite elem_of_list_to_set.
Qed.

Lemma NoDup_of_size (l : list string) :
  length l = size (list_to_set l : gset string) ↔ NoDup l.
Proof.
  split; [|intros Hnd; by rewrite size_list_to_set].
  induction l as [|x l IH]; cbn; [constructor|].
  intros Hlen. destruct (decide (x ∈ l)) as [Hin|Hout].
  - exfalso.
    assert ({[x]} ∪ list_to_set l = (list_to_set l : gset string)) as Heq.
    { assert (x ∈ (list_to_set l : gset string)) by by apply elem_of_list_to_set.
      set_solver. }
    rewrite Heq in Hlen. pose proof (size_list_to_set_le l). lia.
  - constructor; [done|]. apply IH.
    rewrite size_union, size_singleton in Hlen; [lia|].
    apply disjoint_singleton_l. by rewrite elem_of_list_to_set.
Qed.

Section binarizer_properties.
Context {T : Type} `{Duration T} {meta_data payload kwargs_t aug_conf : Type}.
Context (pool :
  (string → meta_data → binarization_args_t → result (option (Item.t T payload))) →
  list (arg (meta_data := meta_data)) → Z → stream (T := T) (payload := payload)).
Implicit Types (self : binarizer T meta_data payload kwargs_t aug_conf).

Lemma spk_map_pairs (sp : list string) :
  (reverse (imap (λ i x, (x, i)) sp)).*1 = reverse sp.
Proof.
  rewrite fmap_reverse. f_equal. rewrite fmap_imap.
  rewrite (imap_ext _ (const id)) by done. by rewrite imap_const, list_fmap_id.
Qed.

(** X13. With distinct speaker names, [build_spk_map] passes its assertion
    exactly when there are at most [num_spk] of them, and then numbers each
    speaker by its position in [hparams['speakers']]: a name has id [i]
    exactly when it is the [i]-th speaker, so different speakers get
    different ids. *)
Theorem spk_map_numbers_the_speakers self :
  NoDup (speakers self) →
  if decide (Z.of_nat (length (speakers self)) ≤ num_spk self) then
    ∃ spk_map,
      build_spk_map self = Ok spk_map
      ∧ ∀ s i, spk_map !! s = Some i ↔ speakers self !! i = Some s
  else
    ∃ msg, build_spk_map self = Raise (AssertionError msg).
Proof.
  intros Hnd. unfold build_spk_map.
  assert (NoDup (reverse (imap (λ i x, (x, i)) (speakers self))).*1) as Hkeys.
  { rewrite spk_map_pairs. by rewrite reverse_Permutation. }
  rewrite (map_size_list_to_map _ Hkeys), length_reverse, length_imap.
  destruct (decide (Z.of_nat (length (speakers self)) ≤ num_spk self)); [|by eauto].
  eexists. split; [done|]. intros s i.
  rewrite <-(elem_of_list_to_map _ _ _ Hkeys), elem_of_reverse.
  rewrite elem_of_lookup_imap. split.
  - by intros (j & x & [= -> ->] & Hx).
  - intros Hi. by exists i, s.
Qed.

Lemma run_returns_finalized self (prefix : string) (workers : Z) (augment : bool) :
  let r := process_dataset pool self prefix workers augment in
  outcome r = Ok () → finalized r = true ∧ is_Some (lengths_file r).
Proof.
  cbn zeta. unfold process_dataset.
  destruct (meta_data_iterator self prefix) as [metas|e]; [|done].
  destruct (if augment then _ else _) as [aug_map|e]; [|done].
  destruct (if decide (0 < workers) then _ else _) as [st [[]|e]]; [|done].
  cbn. eauto.
Qed.

(** X14. If [process] returns, the speaker map was written and both splits
    were binarized to the end: each builder is finalized and each lengths
    array is saved. *)
Theorem process_returns_with_both_splits_done self :
  process_outcome (process pool self) = Ok () →
  ∃ spk_map v t,
    spk_map_json (process pool self) = Some spk_map
    ∧ valid_run (process pool self) = Some v
    ∧ train_run (process pool self) = Some t
    ∧ finalized v = true ∧ is_Some (lengths_file v)
    ∧ finalized t = true ∧ is_Some (lengths_file t).
Proof.
  unfold process.
  destruct (build_spk_map self) as [spk_map|e]; [|done].
  destruct (check_coverage self) as [[]|e]; [|done].
  destruct (outcome (process_dataset pool self "valid" 0 false)) as [[]|e] eqn:Hv;
    [|done].
  cbn. intros Ht. eexists _, _, _. repeat split.
  - by apply (run_returns_finalized self "valid" 0 false).
  - by apply (run_returns_finalized self "valid" 0 false).
  - by eapply run_returns_finalized.
  - by eapply run_returns_finalized.
Qed.

End binarizer_properties.

Lemma spk_map_numbers_the_speakers_witness :
  ∃ spk_map,
    build_spk_map Demo.duet = Ok spk_map
    ∧ ∀ s i, spk_map !! s = Some i ↔ speakers Demo.duet !! i = Some s.
Proof.
  apply (spk_map_numbers_the_speakers Demo.duet). compute_done.
Defined.

Lemma process_returns_with_both_splits_done_witness :
  let p := process Demo.ordered_pool Demo.duet in
  ∃ spk_map v t,
    spk_map_json p = Some spk_map ∧ valid_run p = Some v ∧ train_run p = Some t
    ∧ finalized v = true ∧ is_Some (lengths_file v)
    ∧ finalized t = true ∧ is_Some (lengths_file t).
Proof.
  apply (process_returns_with_both_splits_done Demo.ordered_pool Demo.duet).
  vm_compute. reflexivity.
Defined.

Section init_properties.
Context {T meta_data payload kwargs_t aug_conf : Type}.
Implicit Types (self : binarizer T meta_data payload kwargs_t aug_conf).
Implicit Types (hparams : hparams_t aug_conf).
Implicit Types (sub : subclass T meta_data payload kwargs_t).

Lemma lookup_all_returns (items : gmap string meta_data) (names : list string) :
  Forall (λ x, x ∈ dom items) names → returns (lookup_all items names).
Proof.
  intros Hall. pose proof (lookup_all_spec items names) as Hs.
  destruct (lookup_all items names) as [metas|e]; [by eexists|].
  destruct Hs as (before & n & after & -> & _ & Hn & _).
  apply Forall_app in Hall as [_ [Hin _]%Forall_cons].
  by apply not_elem_of_dom in Hn.
Qed.

(** X16. When the constructor returns, its split is usable: train and valid
    together hold exactly the keys of [self.items], no name is in both, so
    [meta_data_iterator] never meets a missing key, whatever the prefix;
    [self.item_names] holds the same keys (shuffled or not); and the speaker
    names are distinct. *)
Theorem init_leaves_a_usable_split (os : orders) (rng : shuffler)
    (phone_encoder : result ()) hparams sub
    (data_dir : option (string + list string)) self (item_names : list string) :
  init os rng phone_encoder hparams sub data_dir = Ok (self, item_names) →
  (∀ x, x ∈ dom (items self) ↔ x ∈ train_item_names self ∨ x ∈ valid_item_names self)
  ∧ (∀ x, x ∈ train_item_names self → x ∉ valid_item_names self)
  ∧ (∀ prefix, returns (meta_data_iterator self prefix))
  ∧ item_names ≡ₚ elements (dom (items self))
  ∧ NoDup (speakers self).
Proof.
  unfold init, assert.
  destruct (bool_decide (length (hp_speakers hparams) = size _)) eqn:Hdup;
    cbn [mbind result_bind]; [|done].
  apply bool_decide_eq_true in Hdup. apply NoDup_of_size in Hdup.
  destruct (if hp_use_spk_id hparams then _ else _) as [[]|e];
    cbn [mbind result_bind]; [|done].
  destruct phone_encoder as [[]|e]; cbn [mbind result_bind]; [|done].
  destruct (decide (hp_audio_sample_rate hparams = 0));
    cbn [mbind result_bind]; [done|].
  destruct (load_each sub 0 _ ∅) as [its|e]; cbn [mbind result_bind]; [|done].
  destruct (split_train_valid_set os _ _) as [[train valid]|e] eqn:Hsplit;
    cbn [mbind result_bind]; [|done].
  intros [= <- <-]. cbn.
  destruct (split_partition os _ _ _ _ Hsplit) as (Hcover & Hdisj & _ & _).
  assert (∀ x, x ∈ sorted (elements (dom its)) ↔ x ∈ dom its) as Hkeys.
  { intros x. unfold sorted. by rewrite merge_sort_Permutation, elem_of_elements. }
  repeat split.
  - intros Hx. by apply Hcover, Hkeys.
  - intros Hx. by apply Hkeys, Hcover.
  - done.
  - intros prefix. unfold meta_data_iterator. cbn.
    apply lookup_all_returns, Forall_forall. intros x Hx.
    apply Hkeys, Hcover. destruct (decide (prefix = "train")); auto.
  - destruct (shuffle _); [rewrite shuffled_perm|];
      unfold sorted; by rewrite merge_sort_Permutation.
  - done.
Qed.

(** X17. A speaker list with a repeated name stops the constructor with an
    [AssertionError] before any metadata is loaded, whatever the subclass and
    the data directories are. *)
Theorem init_rejects_repeated_speakers (os : orders) (rng : shuffler)
    (phone_encoder : result ()) hparams sub
    (data_dir : option (string + list string)) :
  ¬ NoDup (hp_speakers hparams) →
  init os rng phone_encoder hparams sub data_dir
  = Raise (AssertionError "Speakers cannot contain duplicate names").
Proof.
  intros Hdup. unfold init, assert.
  rewrite (bool_decide_false
             (length (hp_speakers hparams)
              = size (list_to_set (hp_speakers hparams) : gset string)));
    [done|]. by rewrite NoDup_of_size.
Qed.

(** X18. With speaker ids in use, the constructor demands one raw data
    directory per speaker: with distinct speakers and a different number of
    directories (a single directory counts as one) it stops with an
    [AssertionError] before any metadata is loaded. *)
Theorem init_rejects_speaker_directory_mismatch (os : orders) (rng : shuffler)
    (phone_encoder : result ()) hparams sub
    (data_dir : option (string + list string)) :
  NoDup (hp_speakers hparams) →
  hp_use_spk_id hparams = true →
  length (hp_speakers hparams)
  ≠ length (match default (hp_raw_data_dir hparams) data_dir with
            | inl d => [d]
            | inr ds => ds
            end) →
  init os rng phone_encoder hparams sub data_dir
  = Raise (AssertionError
             "Number of raw data dirs must equal number of speaker names!").
Proof.
  intros Hnd Huse Hlen. unfold init, assert.
  rewrite (bool_decide_true
             (length (hp_speakers hparams)
              = size (list_to_set (hp_speakers hparams) : gset string)))
    by by apply NoDup_of_size.
  cbn [mbind result_bind]. rewrite Huse. by rewrite bool_decide_false.
Qed.
End init_properties.

Lemma init_leaves_a_usable_split_witness :
  ∃ self item_names,
    init (uniform ascending) Demo.reversing (Ok ())
      (Demo.duet_hparams false true) Demo.tagging_loader None
    = Ok (self, item_names)
    ∧ valid_item_names self = ["0:do"; "1:re"]
    ∧ (∀ x, x ∈ dom (items self) ↔ x ∈ train_item_names self ∨ x ∈ valid_item_names self)
    ∧ (∀ x, x ∈ train_item_names self → x ∉ valid_item_names self)
    ∧ (∀ prefix, returns (meta_data_iterator self prefix))
    ∧ item_names ≡ₚ elements (dom (items self))
    ∧ NoDup (speakers self).
Proof.
  eexists _, _. split; [vm_compute; reflexivity|]. split; [reflexivity|].
  eapply (init_leaves_a_usable_split (uniform ascending) Demo.reversing (Ok ())
            (Demo.duet_hparams false true) Demo.tagging_loader None).
  vm_compute. reflexivity.
Defined.

Lemma init_rejects_repeated_speakers_witness :
  init (uniform ascending) Demo.reversing (Ok ())
    (Demo.duet_hparams true false) Demo.tagging_loader None
  = Raise (AssertionError "Speakers cannot contain duplicate names").
Proof.
  apply (init_rejects_repeated_speakers (uniform ascending) Demo.reversing (Ok ())
           (Demo.duet_hparams true false) Demo.tagging_loader None).
  compute_done.
Defined.

Lemma init_rejects_speaker_directory_mismatch_witness :
  init (uniform ascending) Demo.reversing (Ok ())
    (Demo.duet_hparams false true) Demo.tagging_loader (Some (inl "data/opencpop"))
  = Raise (AssertionError
             "Number of raw data dirs must equal number of speaker names!").
Proof.
  apply (init_rejects_speaker_directory_mismatch (uniform ascending) Demo.reversing
           (Ok ()) (Demo.duet_hparams false true) Demo.tagging_loader
           (Some (inl "data/opencpop"))).
  - compute_done.
  - reflexivity.
  - compute_done.
Defined.

(** ** [BaseTask]: the batch limits, the validation hooks, the copied files *)
Section task_properties.
Import BaseTask.

Lemma task_init_keys (hparams : gmap string Z) :
  returns (init hparams) ↔
  is_Some (hparams !! "max_batch_frames") ∧ is_Some (hparams !! "max_batch_size")
  ∧ is_Some (hparams !! "max_val_batch_frames")
  ∧ is_Some (hparams !! "max_val_batch_size").
Proof.
  unfold init, getitem.
  destruct (hparams !! "max_batch_frames") as [f|]; cbn [mbind result_bind];
    [|split; [by intros [? [=]]|by intros ([? [=]] & _)]].
  destruct (hparams !! "max_batch_size") as [s|]; cbn [mbind result_bind];
    [|split; [by intros [? [=]]|by intros (_ & [? [=]] & _)]].
  destruct (hparams !! "max_val_batch_frames") as [vf|]; cbn [mbind result_bind];
    [|split; [by intros [? [=]]|by intros (_ & _ & [? [=]] & _)]].
  destruct (decide (vf = -1)); rewrite ?lookup_insert_ne by done;
    (destruct (hparams !! "max_val_batch_size") as [vs|]; cbn [mbind result_bind];
      [|split; [by intros [? [=]]|by intros (_ & _ & _ & [? [=]])]]);
    (destruct (decide (vs = -1)); (split; [by eauto 10|]); intros _; by eexists).
Qed.

(** X19. The constructor reads its four limits with [hparams[...]]: it
    returns exactly when all four options are configured. *)
Theorem task_init_returns_iff (hparams : gmap string Z) :
  returns (init hparams) ↔
  is_Some (hparams !! "max_batch_frames") ∧ is_Some (hparams !! "max_batch_size")
  ∧ is_Some (hparams !! "max_val_batch_frames")
  ∧ is_Some (hparams !! "max_val_batch_size").
Proof. apply task_init_keys. Qed.

Lemma init_spec (hparams : gmap string Z) (f s vf vs : Z) :
  hparams !! "max_batch_frames" = Some f →
  hparams !! "max_batch_size" = Some s →
  hparams !! "max_val_batch_frames" = Some vf →
  hparams !! "max_val_batch_size" = Some vs →
  let vf' := if decide (vf = -1) then f else vf in
  let vs' := if decide (vs = -1) then s else vs in
  init hparams
  = Ok ({| max_batch_frames := f; max_batch_size := s;
           max_val_batch_frames := vf'; max_val_batch_size := vs' |},
        <["max_val_batch_size" := vs']> (<["max_val_batch_frames" := vf']> hparams)).
Proof.
  intros Hf Hs Hvf Hvs. cbn zeta. unfold init, getitem.
  rewrite Hf, Hs, Hvf. cbn [mbind result_bind].
  destruct (decide (vf = -1)) as [->|Hnf].
  - rewrite lookup_insert_ne, Hvs by done. cbn [mbind result_bind].
    destruct (decide (vs = -1)) as [->|Hns]; [done|].
    f_equal. f_equal. symmetry. apply insert_id. by rewrite lookup_insert_ne.
  - rewrite Hvs. cbn [mbind result_bind].
    rewrite (insert_id hparams "max_val_batch_frames" vf) by done.
    destruct (decide (vs = -1)) as [->|Hns]; [done|].
    f_equal. f_equal. symmetry. by apply insert_id.
Qed.

(** X20. [hparams] is global and the constructor writes to it; building the
    task a second time on the options the first construction left behind
    gives the same limits and leaves the options as they are. *)
Theorem task_init_is_idempotent (hparams hparams' : gmap string Z)
    (limits : batch_limits) :
  init hparams = Ok (limits, hparams') → init hparams' = Ok (limits, hparams').
Proof.
  intros Hinit.
  assert (returns (init hparams)) as Hret by by eexists.
  apply task_init_keys in Hret as ([f Hf] & [s Hs] & [vf Hvf] & [vs Hvs]).
  rewrite (init_spec hparams f s vf vs Hf Hs Hvf Hvs) in Hinit.
  injection Hinit as <- <-.
  set (vf' := if decide (vf = -1) then f else vf).
  set (vs' := if decide (vs = -1) then s else vs).
  rewrite (init_spec _ f s vf' vs').
  - assert ((if decide (vf' = -1) then f else vf') = vf') as ->.
    { subst vf'. by repeat case_decide; subst. }
    assert ((if decide (vs' = -1) then s else vs') = vs') as ->.
    { subst vs'. by repeat case_decide; subst. }
    f_equal. f_equal.
    rewrite (insert_id (<["max_val_batch_size":=vs']> _) "max_val_batch_frames" vf')
      by by rewrite lookup_insert_ne, lookup_insert_eq.
    by rewrite insert_insert_eq.
  - by rewrite !lookup_insert_ne.
  - by rewrite !lookup_insert_ne.
  - by rewrite lookup_insert_ne, lookup_insert_eq.
  - by rewrite lookup_insert_eq.
Qed.
End task_properties.

Lemma task_init_is_idempotent_witness :
  BaseTask.init (<["max_val_batch_frames" := 80000]> Demo.configured)
  = Ok ({| BaseTask.max_batch_frames := 80000; BaseTask.max_batch_size := 48;
           BaseTask.max_val_batch_frames := 80000;
           BaseTask.max_val_batch_size := 1 |},
        <["max_val_batch_frames" := 80000]> Demo.configured).
Proof.
  apply (task_init_is_idempotent Demo.configured). reflexivity.
Defined.

Section hook_properties.
Import BaseTask.
Context {V W M X batch O : Type}.
Context (mean_update : M → V → W → M) (mean_compute : M → V) (mean_reset : M → M).
Context (other_compute : X → V) (other_reset : X → X).
Implicit Types (self : task V M X) (metrics : gmap string (metric M X)).
Implicit Types (outputs : list (string * V)) (weight : W).


(** X21. Saving a checkpoint and loading it again: the task skips the next
    validation exactly when the checkpoint was saved in the validating stage
    (or the flag was already set); nothing else of the task changes. *)
Theorem checkpoint_stage_round_trip (validating : string)
    (category : option (ckpt_value O)) (stage : string) self
    (checkpoint : gmap string (ckpt_value O)) :
  on_load_checkpoint validating self (on_save_checkpoint category stage checkpoint)
  = {| skip_immediate_validation :=
         skip_immediate_validation self || bool_decide (stage = validating);
       skip_immediate_ckpt_save := skip_immediate_ckpt_save self;
       valid_metrics := valid_metrics self;
       global_step := global_step self;
       log_calls := log_calls self |}.
Proof.
  unfold on_load_checkpoint, on_save_checkpoint. rewrite lookup_insert_eq. cbn.
  destruct self as [skip ck ms gs lg]. cbn.
  destruct (bool_decide (stage = validating)); [|by rewrite orb_false_r].
  by rewrite orb_true_r.
Qed.

(** X22. While [skip_immediate_validation] is set, validation steps return
    empty outputs without calling [_validation_step] and leave the task as it
    is; the end of that validation epoch clears the flag, sets
    [skip_immediate_ckpt_save], and neither logs nor resets anything. *)
Theorem resumed_validation_is_skipped
    (vs : batch → Z → result (list (string * V) * W)) self
    (batches : list (batch * Z)) :
  skip_immediate_validation self = true →
  foldl (λ st b, (validation_step mean_update vs st b.1 b.2).1) self batches = self
  ∧ Forall (λ b, (validation_step mean_update vs self b.1 b.2).2 = Ok []) batches
  ∧ on_validation_epoch_end mean_compute mean_reset other_compute other_reset self
    = ({| skip_immediate_validation := false;
          skip_immediate_ckpt_save := true;
          valid_metrics := valid_metrics self;
          global_step := global_step self;
          log_calls := log_calls self |}, Ok ()).
Proof.
  intros Hskip. repeat split.
  - induction batches as [|b batches IH]; [done|].
    cbn. unfold validation_step at 2. by rewrite Hskip.
  - apply Forall_forall. intros b _. unfold validation_step. by rewrite Hskip.
  - unfold on_validation_epoch_end. by rewrite Hskip.
Qed.

(** X23. The end of a validation epoch that is not skipped needs a metric
    named ['total_loss']: without it the hook raises [KeyError] and the task
    is unchanged; with it the hook logs its value as ['val_loss'], logs
    every metric [k] under ['val/k'], and resets every metric. *)
Theorem validation_epoch_end_logs_and_resets self :
  skip_immediate_validation self = false →
  match valid_metrics self !! "total_loss" with
  | None =>
      on_validation_epoch_end mean_compute mean_reset other_compute other_reset self
      = (self, Raise (KeyError "total_loss"))
  | Some total =>
      ∃ self' logged,
        on_validation_epoch_end mean_compute mean_reset other_compute other_reset self
        = (self', Ok ())
        ∧ log_calls self'
          = log_calls self
            ++ [Log "val_loss" (compute mean_compute other_compute total);
                LogMetrics logged (global_step self)]
        ∧ (∀ k, logged !! ("val/" +:+ k)
                = compute mean_compute other_compute <$> valid_metrics self !! k)
        ∧ (∀ k, valid_metrics self' !! k
                = reset mean_reset other_reset <$> valid_metrics self !! k)
        ∧ skip_immediate_validation self' = false
        ∧ skip_immediate_ckpt_save self' = skip_immediate_ckpt_save self
  end.
Proof.
  intros Hskip. unfold on_validation_epoch_end. rewrite Hskip, lookup_fmap.
  destruct (valid_metrics self !! "total_loss") as [total|]; [|done].
  cbn. eexists _, _. split; [done|]. cbn. repeat split.
  - intros k. by rewrite (lookup_kmap (String.append "val/")), lookup_fmap.
  - intros k. by rewrite lookup_fmap.
Qed.

Lemma update_metrics_preserves_keys weight outputs metrics k :
  is_Some ((update_metrics mean_update weight outputs metrics).1 !! k)
  ↔ is_Some (metrics !! k).
Proof.
  revert metrics. induction outputs as [|[k' v] outputs IH]; intros metrics; [done|].
  cbn. destruct (metrics !! k') as [[m|x]|] eqn:Hk'; [|by apply IH|done].
  rewrite IH. destruct (decide (k' = k)) as [->|Hne].
  - rewrite lookup_insert_eq, Hk'. split; eauto.
  - by rewrite lookup_insert_ne.
Qed.

Lemma update_metrics_known weight outputs metrics :
  NoDup outputs.*1 →
  Forall (λ kv, is_Some (metrics !! kv.1)) outputs →
  ∃ metrics',
    update_metrics mean_update weight outputs metrics = (metrics', Ok ())
    ∧ (∀ k v, (k, v) ∈ outputs → metrics' !! k = bump mean_update weight v <$> metrics !! k)
    ∧ (∀ k, k ∉ outputs.*1 → metrics' !! k = metrics !! k).
Proof.
  revert metrics. induction outputs as [|[k v] outputs IH]; intros metrics Hnd Hall.
  { exists metrics. split; [done|]. split; [|done].
    intros k v Hin. by apply elem_of_nil in Hin. }
  apply NoDup_cons in Hnd as [Hk Hnd]. apply Forall_cons in Hall as [[mt Hmt] Hall].
  cbn in Hmt, Hk.
  assert (∃ metrics1,
            update_metrics mean_update weight ((k, v) :: outputs) metrics
            = update_metrics mean_update weight outputs metrics1
            ∧ metrics1 !! k = Some (bump mean_update weight v mt)
            ∧ ∀ k', k' ≠ k → metrics1 !! k' = metrics !! k')
    as (metrics1 & -> & Hk1 & Hother).
  { cbn. rewrite Hmt. destruct mt as [m|x].
    - eexists. split; [done|]. rewrite lookup_insert_eq. split; [done|].
      intros k' Hne. by rewrite lookup_insert_ne.
    - exists metrics. by repeat split. }
  destruct (IH metrics1 Hnd) as (metrics' & Hrun & Hin & Hout).
  { eapply Forall_impl; [exact Hall|]. intros [k' v'] [mt' Hk']. cbn in *.
    destruct (decide (k' = k)) as [->|Hne]; [by eauto|]. rewrite Hother by done. by eauto. }
  exists metrics'. split; [done|]. split.
  - intros k' v' [[= -> ->]|Hin']%elem_of_cons.
    + by rewrite (Hout k Hk), Hk1, Hmt.
    + rewrite (Hin k' v' Hin'). rewrite Hother; [done|]. intros ->.
      apply Hk. apply list_elem_of_fmap. by exists (k, v').
  - intros k' Hk'. cbn in Hk'. apply not_elem_of_cons in Hk' as [Hne Hk'].
    by rewrite (Hout k' Hk'), Hother.
Qed.

(** X24. A validation step that is not skipped and whose outputs all have a
    metric returns those outputs; each [MeanMetric] named by an output is
    updated once with that output and the step's weight, metrics of any
    other class and metrics not named by an output are left alone. *)
Theorem validation_step_updates_named_means
    (vs : batch → Z → result (list (string * V) * W)) self
    (sample : batch) (batch_idx : Z) outputs weight :
  skip_immediate_validation self = false →
  vs sample batch_idx = Ok (outputs, weight) →
  NoDup outputs.*1 →
  Forall (λ kv, is_Some (valid_metrics self !! kv.1)) outputs →
  ∃ self',
    validation_step mean_update vs self sample batch_idx = (self', Ok outputs)
    ∧ (∀ k v, (k, v) ∈ outputs →
         valid_metrics self' !! k = bump mean_update weight v <$> valid_metrics self !! k)
    ∧ (∀ k, k ∉ outputs.*1 → valid_metrics self' !! k = valid_metrics self !! k)
    ∧ log_calls self' = log_calls self
    ∧ skip_immediate_validation self' = false.
Proof.
  intros Hskip Hvs Hnd Hall. unfold validation_step. rewrite Hskip, Hvs.
  destruct (update_metrics_known weight outputs (valid_metrics self) Hnd Hall)
    as (metrics' & -> & Hin & Hout).
  eexists. split; [done|]. cbn. by repeat split.
Qed.

Lemma update_metrics_app weight outputs1 outputs2 metrics :
  update_metrics mean_update weight (outputs1 ++ outputs2) metrics
  = match update_metrics mean_update weight outputs1 metrics with
    | (metrics1, Ok _) => update_metrics mean_update weight outputs2 metrics1
    | (metrics1, Raise e) => (metrics1, Raise e)
    end.
Proof.
  revert metrics. induction outputs1 as [|[k v] outputs1 IH]; intros metrics; [done|].
  cbn. destruct (metrics !! k) as [[m|x]|]; [apply IH|apply IH|done].
Qed.

(** X25. An output whose key has no metric stops the step with the
    [KeyError] of that key; the metrics named by the outputs before it have
    already been updated and stay updated, the outputs after it are not
    looked at. *)
Theorem validation_step_fails_on_unknown_output
    (vs : batch → Z → result (list (string * V) * W)) self
    (sample : batch) (batch_idx : Z) outputs_before (k : string) (v : V)
    outputs_after weight :
  skip_immediate_validation self = false →
  vs sample batch_idx = Ok (outputs_before ++ (k, v) :: outputs_after, weight) →
  NoDup outputs_before.*1 →
  Forall (λ kv, is_Some (valid_metrics self !! kv.1)) outputs_before →
  valid_metrics self !! k = None →
  ∃ self',
    validation_step mean_update vs self sample batch_idx = (self', Raise (KeyError k))
    ∧ (∀ k' v', (k', v') ∈ outputs_before →
         valid_metrics self' !! k' = bump mean_update weight v' <$> valid_metrics self !! k')
    ∧ (∀ k', k' ∉ outputs_before.*1 →
         valid_metrics self' !! k' = valid_metrics self !! k').
Proof.
  intros Hskip Hvs Hnd Hall Hk. unfold validation_step. rewrite Hskip, Hvs.
  rewrite update_metrics_app.
  pose proof (update_metrics_preserves_keys weight outputs_before
                (valid_metrics self) k) as Hkeys.
  destruct (update_metrics_known weight outputs_before (valid_metrics self) Hnd Hall)
    as (metrics' & Hrun & Hin & Hout).
  rewrite Hrun in Hkeys. rewrite Hrun. cbn in Hkeys.
  assert (metrics' !! k = None) as Hk'.
  { apply eq_None_not_Some. intros Hs. apply Hkeys in Hs.
    rewrite Hk in Hs. by destruct Hs. }
  cbn. rewrite Hk'. eexists. split; [done|]. cbn. by split.
Qed.
End hook_properties.

Lemma resumed_validation_is_skipped_witness :
  let self := Demo.validating_task true in
  let step st b :=
    (BaseTask.validation_step Demo.mean_update (Demo.report_loss false) st b.1 b.2).1 in
  foldl step self [((), 0); ((), 1)] = self
  ∧ Forall (λ b, (BaseTask.validation_step Demo.mean_update (Demo.report_loss false)
                    self b.1 b.2).2 = Ok []) [((), 0); ((), 1)]
  ∧ BaseTask.on_validation_epoch_end Demo.mean_compute Demo.mean_reset
      (λ _, 0) id self
    = ({| BaseTask.skip_immediate_validation := false;
          BaseTask.skip_immediate_ckpt_save := true;
          BaseTask.valid_metrics := BaseTask.valid_metrics self;
          BaseTask.global_step := BaseTask.global_step self;
          BaseTask.log_calls := BaseTask.log_calls self |}, Ok ()).
Proof.
  intros self step.
  apply (resumed_validation_is_skipped Demo.mean_update Demo.mean_compute
           Demo.mean_reset (λ _, 0) id (Demo.report_loss false) self
           [((), 0); ((), 1)]).
  reflexivity.
Defined.

Lemma validation_epoch_end_logs_and_resets_witness :
  let self := Demo.validating_task false in
  ∃ self' logged,
    BaseTask.on_validation_epoch_end Demo.mean_compute Demo.mean_reset
      (λ _, 0) id self = (self', Ok ())
    ∧ BaseTask.log_calls self'
      = BaseTask.log_calls self
        ++ [BaseTask.Log "val_loss" 10; BaseTask.LogMetrics logged 2000]
    ∧ (∀ k, logged !! ("val/" +:+ k)
            = BaseTask.compute Demo.mean_compute (λ _, 0)
              <$> BaseTask.valid_metrics self !! k)
    ∧ (∀ k, BaseTask.valid_metrics self' !! k
            = BaseTask.reset Demo.mean_reset id <$> BaseTask.valid_metrics self !! k)
    ∧ BaseTask.skip_immediate_validation self' = false
    ∧ BaseTask.skip_immediate_ckpt_save self'
      = BaseTask.skip_immediate_ckpt_save self.
Proof.
  intros self.
  apply (validation_epoch_end_logs_and_resets Demo.mean_compute Demo.mean_reset
           (λ _, 0) id self).
  reflexivity.
Defined.

Lemma validation_step_updates_named_means_witness :
  let self := Demo.validating_task false in
  ∃ self',
    BaseTask.validation_step Demo.mean_update (Demo.report_loss false) self () 0
    = (self', Ok [("total_loss", 7); ("curve", 1)])
    ∧ (∀ k v, (k, v) ∈ [("total_loss", 7); ("curve", 1)] →
         BaseTask.valid_metrics self' !! k
         = BaseTask.bump Demo.mean_update 2 v <$> BaseTask.valid_metrics self !! k)
    ∧ (∀ k, k ∉ [("total_loss", 7); ("curve", 1)].*1 →
         BaseTask.valid_metrics self' !! k = BaseTask.valid_metrics self !! k)
    ∧ BaseTask.log_calls self' = BaseTask.log_calls self
    ∧ BaseTask.skip_immediate_validation self' = false.
Proof.
  intros self.
  apply (validation_step_updates_named_means Demo.mean_update
           (Demo.report_loss false) self () 0 [("total_loss", 7); ("curve", 1)] 2).
  - reflexivity.
  - reflexivity.
  - compute_done.
  - repeat constructor; by eexists.
Defined.

Lemma validation_step_fails_on_unknown_output_witness :
  let self := Demo.validating_task false in
  ∃ self',
    BaseTask.validation_step Demo.mean_update (Demo.report_loss true) self () 0
    = (self', Raise (KeyError "pitch_loss"))
    ∧ (∀ k' v', (k', v') ∈ [("total_loss", 7)] →
         BaseTask.valid_metrics self' !! k'
         = BaseTask.bump Demo.mean_update 2 v' <$> BaseTask.valid_metrics self !! k')
    ∧ (∀ k', k' ∉ [("total_loss", 7)].*1 →
         BaseTask.valid_metrics self' !! k' = BaseTask.valid_metrics self !! k').
Proof.
  intros self.
  apply (validation_step_fails_on_unknown_output Demo.mean_update
           (Demo.report_loss true) self () 0 [("total_loss", 7)] "pitch_loss" 5
           [("curve", 1)] 2).
  - reflexivity.
  - reflexivity.
  - compute_done.
  - repeat constructor; by eexists.
  - reflexivity.
Defined.

Section payload_properties.
Import BaseTask.
Context {content : Type} (join : string → string → string).
Implicit Types (fs : gmap string content) (work_dir binary_dir located : string).

Lemma shutil_copy_fresh (src dst : string) fs fs' :
  fs !! dst = None → shutil_copy src dst fs = Ok fs' →
  fs' !! dst = fs !! src ∧ is_Some (fs' !! dst)
  ∧ ∀ p, p ≠ dst → fs' !! p = fs !! p.
Proof.
  unfold shutil_copy. intros Hdst. destruct (fs !! src) as [c|] eqn:Hsrc; [|done].
  intros [= <-]. rewrite lookup_insert_eq. repeat split; [by eauto|].
  intros p Hp. by rewrite lookup_insert_ne.
Qed.

Lemma copy_files_steps work_dir binary_dir located fs fs' :
  copy_spk_map_and_dictionary join work_dir binary_dir located fs = Ok fs' →
  ∃ fs1,
    (fs1 = fs ∨ (fs !! join work_dir "spk_map.json" = None
                 ∧ shutil_copy (join binary_dir "spk_map.json")
                     (join work_dir "spk_map.json") fs = Ok fs1))
    ∧ (fs' = fs1 ∧ is_Some (fs1 !! join work_dir "dictionary.txt")
       ∨ (fs1 !! join work_dir "dictionary.txt" = None
          ∧ ∃ src, shutil_copy src (join work_dir "dictionary.txt") fs1 = Ok fs')).
Proof.
  unfold copy_spk_map_and_dictionary.
  destruct (bool_decide (fs !! join work_dir "spk_map.json" = None)
            && bool_decide (is_Some (fs !! join binary_dir "spk_map.json"))) eqn:Hc.
  - apply andb_true_iff in Hc as [Hnone%bool_decide_eq_true _].
    destruct (shutil_copy _ _ fs) as [fs1|e] eqn:Hcopy; [|done].
    cbn [mbind result_bind]. intros Hrest. exists fs1. split; [by right|].
    case_bool_decide as Hd.
    + right. split; [done|]. case_bool_decide; eauto.
    + left. injection Hrest as <-. split; [done|].
      by apply not_eq_None_Some.
  - cbn [mbind result_bind]. intros Hrest. exists fs. split; [by left|].
    case_bool_decide as Hd.
    + right. split; [done|]. case_bool_decide; eauto.
    + left. injection Hrest as <-. split; [done|].
      by apply not_eq_None_Some.
Qed.

Lemma copy_files_effect work_dir binary_dir located fs fs' :
  copy_spk_map_and_dictionary join work_dir binary_dir located fs = Ok fs' →
  (∀ p, is_Some (fs !! p) → fs' !! p = fs !! p)
  ∧ (∀ p, fs' !! p ≠ fs !! p →
       p = join work_dir "spk_map.json" ∨ p = join work_dir "dictionary.txt")
  ∧ is_Some (fs' !! join work_dir "dictionary.txt").
Proof.
  intros Hrun. apply copy_files_steps in Hrun as (fs1 & H1 & H2).
  assert (∀ p, p ≠ join work_dir "spk_map.json" → fs1 !! p = fs !! p) as Hfs1.
  { destruct H1 as [->|[Hnone Hcopy]]; [done|].
    by apply (shutil_copy_fresh _ _ _ _ Hnone Hcopy). }
  assert (∀ p, is_Some (fs !! p) → fs1 !! p = fs !! p) as Hold1.
  { destruct H1 as [->|[Hnone Hcopy]]; [done|]. intros p Hp.
    apply Hfs1. intros ->. rewrite Hnone in Hp. by destruct Hp. }
  destruct H2 as [[-> Hdict]|[Hnone (src & Hcopy)]].
  - repeat split; [done| |done].
    intros p Hp. left. destruct (decide (p = join work_dir "spk_map.json")); [done|].
    by rewrite Hfs1 in Hp.
  - destruct (shutil_copy_fresh _ _ _ _ Hnone Hcopy) as (_ & Hdict & Hother).
    repeat split; [| |done].
    + intros p Hp. rewrite Hother; [by apply Hold1|].
      intros ->. rewrite <-(Hold1 _ Hp), Hnone in Hp. by destruct Hp.
    + intros p Hp.
      destruct (decide (p = join work_dir "dictionary.txt")); [by right|]. left.
      destruct (decide (p = join work_dir "spk_map.json")); [done|].
      by rewrite Hother, Hfs1 in Hp.
Qed.

(** X26. When the copy returns, no file that existed before has changed,
    the only paths it may have created are [spk_map.json] and
    [dictionary.txt] of the work directory, and the work directory has a
    dictionary. *)
Theorem payload_copy_keeps_existing_files work_dir binary_dir located fs fs' :
  copy_spk_map_and_dictionary join work_dir binary_dir located fs = Ok fs' →
  (∀ p, is_Some (fs !! p) → fs' !! p = fs !! p)
  ∧ (∀ p, fs' !! p ≠ fs !! p →
       p = join work_dir "spk_map.json" ∨ p = join work_dir "dictionary.txt")
  ∧ is_Some (fs' !! join work_dir "dictionary.txt").
Proof. apply copy_files_effect. Qed.

Lemma shutil_copy_keeps (src dst : string) fs fs' (p : string) :
  shutil_copy src dst fs = Ok fs' → is_Some (fs !! p) → is_Some (fs' !! p).
Proof.
  unfold shutil_copy. destruct (fs !! src) as [c|]; [|done]. intros [= <-] Hp.
  destruct (decide (p = dst)) as [->|?].
  - rewrite lookup_insert_eq. by eauto.
  - by rewrite lookup_insert_ne.
Qed.

Lemma copy_files_spk_map work_dir binary_dir located fs fs' :
  copy_spk_map_and_dictionary join work_dir binary_dir located fs = Ok fs' →
  is_Some (fs !! join binary_dir "spk_map.json") →
  is_Some (fs' !! join work_dir "spk_map.json").
Proof.
  intros Hrun Hsrc.
  assert (∃ fs1, is_Some (fs1 !! join work_dir "spk_map.json")
                 ∧ (fs' = fs1 ∨ ∃ src dst, shutil_copy src dst fs1 = Ok fs'))
    as (fs1 & Hs & [->|(src & dst & Hcopy)]); [|done|by eapply shutil_copy_keeps].
  unfold copy_spk_map_and_dictionary in Hrun.
  rewrite (bool_decide_true (is_Some (fs !! join binary_dir "spk_map.json")))
    in Hrun by done.
  rewrite andb_true_r in Hrun.
  case_bool_decide as Hw.
  - destruct (shutil_copy _ _ fs) as [fs1|e] eqn:Hcopy; [|done].
    cbn [mbind result_bind] in Hrun. exists fs1. split.
    { by apply (shutil_copy_fresh _ _ _ _ Hw Hcopy). }
    repeat case_bool_decide; [by eauto..|]. left. congruence.
  - cbn [mbind result_bind] in Hrun. exists fs. split.
    { by apply not_eq_None_Some. }
    repeat case_bool_decide; [by eauto..|]. left. congruence.
Qed.

(** X27. The copy fails only when there is no dictionary to be had: if the
    work directory, the binary data directory or [locate_dictionary()] has
    one, the copy returns. *)
Theorem payload_copy_returns_if_a_dictionary_exists
    work_dir binary_dir located fs :
  is_Some (fs !! join work_dir "dictionary.txt")
  ∨ is_Some (fs !! join binary_dir "dictionary.txt")
  ∨ is_Some (fs !! located) →
  returns (copy_spk_map_and_dictionary join work_dir binary_dir located fs).
Proof.
  intros Hsome. unfold copy_spk_map_and_dictionary.
  assert (∃ fs1,
    (if bool_decide (fs !! join work_dir "spk_map.json" = None)
        && bool_decide (is_Some (fs !! join binary_dir "spk_map.json"))
     then shutil_copy (join binary_dir "spk_map.json")
            (join work_dir "spk_map.json") fs
     else Ok fs) = Ok fs1
    ∧ ∀ p, is_Some (fs !! p) → is_Some (fs1 !! p)) as (fs1 & -> & Hkeep).
  { destruct (bool_decide _ && bool_decide _) eqn:Hc; [|by eauto].
    apply andb_true_iff in Hc as [Hnone%bool_decide_eq_true [c Hc]%bool_decide_eq_true].
    unfold shutil_copy. rewrite Hc. eexists. split; [done|].
    intros p Hp. destruct (decide (p = join work_dir "spk_map.json")) as [->|?].
    - rewrite lookup_insert_eq. by eauto.
    - by rewrite lookup_insert_ne. }
  cbn [mbind result_bind].
  case_bool_decide as Hd; [|by eexists].
  case_bool_decide as Hb.
  - destruct Hb as [c Hc]. unfold shutil_copy. rewrite Hc. by eexists.
  - destruct Hsome as [Hw|[Hbin|Hloc]].
    + apply Hkeep in Hw. rewrite Hd in Hw. by destruct Hw.
    + by apply Hkeep in Hbin.
    + destruct (Hkeep _ Hloc) as [c' Hc']. unfold shutil_copy. rewrite Hc'.
      by eexists.
Qed.

(** X28. Running the copy again changes nothing, provided the dictionary of
    the work directory is not the very path of the speaker map of the binary
    data directory. *)
Theorem payload_copy_is_idempotent work_dir binary_dir located fs fs' :
  join work_dir "dictionary.txt" ≠ join binary_dir "spk_map.json" →
  copy_spk_map_and_dictionary join work_dir binary_dir located fs = Ok fs' →
  copy_spk_map_and_dictionary join work_dir binary_dir located fs' = Ok fs'.
Proof.
  intros Hne Hrun.
  destruct (copy_files_effect _ _ _ _ _ Hrun) as (Hold & Hnew & Hdict).
  pose proof (copy_files_spk_map _ _ _ _ _ Hrun) as Hspk.
  unfold copy_spk_map_and_dictionary.
  assert (bool_decide (fs' !! join work_dir "spk_map.json" = None)
          && bool_decide (is_Some (fs' !! join binary_dir "spk_map.json")) = false)
    as ->.
  { apply andb_false_iff.
    destruct (fs' !! join work_dir "spk_map.json") as [c|] eqn:Hw;
      [left; by apply bool_decide_eq_false|].
    right. apply bool_decide_eq_false. intros Hsrc.
    destruct (fs !! join binary_dir "spk_map.json") as [c|] eqn:Hb.
    - destruct Hspk as [c' Hc']; [by eauto|]. congruence.
    - destruct (Hnew (join binary_dir "spk_map.json")) as [Heq|Heq].
      + rewrite Hb. intros Hnone. rewrite Hnone in Hsrc. by destruct Hsrc.
      + rewrite Heq, Hw in Hsrc. by destruct Hsrc.
      + by apply Hne. }
  cbn [mbind result_bind].
  rewrite bool_decide_false; [done|]. by apply not_eq_None_Some.
Qed.
End payload_properties.

Lemma payload_copy_keeps_existing_files_witness :
  let fs' := <["work/spk_map.json" := "{opencpop: 0}"]> Demo.disk in
  (∀ p, is_Some (Demo.disk !! p) → fs' !! p = Demo.disk !! p)
  ∧ (∀ p, fs' !! p ≠ Demo.disk !! p →
       p = Demo.slash "work" "spk_map.json" ∨ p = Demo.slash "work" "dictionary.txt")
  ∧ is_Some (fs' !! Demo.slash "work" "dictionary.txt").
Proof.
  intros fs'.
  apply (payload_copy_keeps_existing_files Demo.slash "work" "bin"
           "dictionaries/opencpop.txt" Demo.disk fs').
  vm_compute. reflexivity.
Defined.

Lemma payload_copy_returns_if_a_dictionary_exists_witness :
  returns (BaseTask.copy_spk_map_and_dictionary Demo.slash "fresh" "bin"
             "dictionaries/opencpop.txt" Demo.disk).
Proof.
  apply (payload_copy_returns_if_a_dictionary_exists Demo.slash "fresh" "bin"
           "dictionaries/opencpop.txt" Demo.disk).
  right; left. compute_done.
Defined.

Lemma payload_copy_is_idempotent_witness :
  let fs' := <["work/spk_map.json" := "{opencpop: 0}"]> Demo.disk in
  BaseTask.copy_spk_map_and_dictionary Demo.slash "work" "bin"
    "dictionaries/opencpop.txt" fs' = Ok fs'.
Proof.
  intros fs'.
  apply (payload_copy_is_idempotent Demo.slash "work" "bin"
           "dictionaries/opencpop.txt" Demo.disk fs').
  - compute_done.
  - vm_compute. reflexivity.
Defined.

Lemma split_fails_only_on_an_ambiguous_prefix_witness :
  let names := ["spk1:song"; "spk2:song"; "spk2:tune"] in
  ∃ k n1 n2,
    KeyError "song" = KeyError k ∧ n1 ∈ names ∧ n2 ∈ names ∧ n1 ≠ n2
    ∧ (reaches_tier2 names ["song"; "tune"] k
       ∧ colon_suffix n1 = k ∧ colon_suffix n2 = k
       ∨ reaches_tier3 names ["song"; "tune"] k
         ∧ startswith n1 k ∧ startswith n2 k).
Proof.
  intros names.
  apply (split_fails_only_on_an_ambiguous_prefix (uniform ascending) names
           ["song"; "tune"] (KeyError "song")).
  vm_compute. reflexivity.
Defined.
